(** * aar_doc.defaults: collecting role defaults and writing the defaults file

    A shallow embedding of [src/aar_doc/defaults.py]:
    the [RoleDefault] / [RoleDefaultsManager] data classes, the
    projection [to_commented_map], the extraction driver
    [generate_commented_defaults] and the writer [write_defaults].

    Python values are a closed variant [Any]; a Python [str] is its
    sequence of Unicode code points; a Python [dict] is an association
    list in insertion order whose keys are pairwise distinct. *)

From Stdlib Require Import List NArith ZArith Bool Lia String Ascii.
Import ListNotations.

Set Implicit Arguments.

(** ** Python strings *)

Module Str.

(** A [str] is the list of its code points. *)
Definition str : Type := list N.

(** A literal of the source, written with ASCII characters only. *)
Definition lit (s : string) : str :=
  map N_of_ascii (list_ascii_of_string s).

Definition eqb (a b : str) : bool :=
  if list_eq_dec N.eq_dec a b then true else false.

(** The code point of ["\n"]. *)
Definition newline : N := 10%N.

(** [c.isspace()] for one code point: the characters [str.strip()]
    removes when called without argument. *)
Definition isspace (c : N) : bool :=
  ((9 <=? c) && (c <=? 13) ||
   (28 <=? c) && (c <=? 32) ||
   (c =? 133) || (c =? 160) || (c =? 5760) ||
   (8192 <=? c) && (c <=? 8202) ||
   (c =? 8232) || (c =? 8233) || (c =? 8239) || (c =? 8287) ||
   (c =? 12288))%N.

Fixpoint lstrip (s : str) : str :=
  match s with
  | [] => []
  | c :: s' => if isspace c then lstrip s' else s
  end.

Definition rstrip (s : str) : str := rev (lstrip (rev s)).

(** [s.strip()] *)
Definition strip (s : str) : str := rstrip (lstrip s).

(** ["\n" in s] *)
Definition has_newline (s : str) : bool := existsb (N.eqb newline) s.

(** [sep.join(xs)] *)
Fixpoint join (sep : str) (xs : list str) : str :=
  match xs with
  | [] => []
  | [x] => x
  | x :: xs' => x ++ sep ++ join sep xs'
  end.

(** [needle in hay] for strings. *)
Fixpoint prefixb (p s : str) : bool :=
  match p, s with
  | [], _ => true
  | a :: p', b :: s' => N.eqb a b && prefixb p' s'
  | _ :: _, [] => false
  end.

Fixpoint contains (needle hay : str) : bool :=
  prefixb needle hay ||
  match hay with
  | [] => false
  | _ :: hay' => contains needle hay'
  end.

End Str.

Import Str.

(** ** Python values *)

#[local] Set Warnings "-register-all".

(** The values a loaded specification is made of: [None], booleans,
    integers, strings, lists and string-keyed dicts. *)
Inductive Any : Type :=
| VNone
| VBool (b : bool)
| VInt (n : Z)
| VStr (s : str)
| VList (xs : list Any)
| VDict (kvs : list (str * Any)).

(** [bool(v)]: the truth value Python gives to [v]. *)
Definition truthy (v : Any) : bool :=
  match v with
  | VNone => false
  | VBool b => b
  | VInt n => negb (n =? 0)%Z
  | VStr s => match s with [] => false | _ => true end
  | VList xs => match xs with [] => false | _ => true end
  | VDict kvs => match kvs with [] => false | _ => true end
  end.

Definition is_None (v : Any) : bool :=
  match v with VNone => true | _ => false end.

(** ** Python dicts: insertion-ordered association lists *)

Module Dict.
Section Ops.
Variable V : Type.

Definition dict : Type := list (str * V).

Definition keys (d : dict) : list str := map fst d.
Definition values (d : dict) : list V := map snd d.

(** [d[k]] when present *)
Fixpoint lookup (k : str) (d : dict) : option V :=
  match d with
  | [] => None
  | (k', v) :: d' => if Str.eqb k k' then Some v else lookup k d'
  end.

Definition mem (k : str) (d : dict) : bool :=
  match lookup k d with Some _ => true | None => false end.

(** [d[k] = v]: an existing key keeps its place, a new one goes last. *)
Fixpoint setitem (k : str) (v : V) (d : dict) : dict :=
  match d with
  | [] => [(k, v)]
  | (k', v') :: d' =>
      if Str.eqb k k' then (k', v) :: d' else (k', v') :: setitem k v d'
  end.

(** [d.setdefault(k, v)], for its effect on [d]. *)
Definition setdefault (k : str) (v : V) (d : dict) : dict :=
  if mem k d then d else d ++ [(k, v)].

End Ops.
End Dict.

Import Dict.

(** [d.get(k)] on a dict of values: [None] when the key is absent. *)
Definition get (d : dict Any) (k : str) : Any :=
  match lookup k d with Some v => v | None => VNone end.

(** [d.get(k, default)] *)
Definition get_or (d : dict Any) (k : str) (default : Any) : Any :=
  match lookup k d with Some v => v | None => default end.

(** ** RoleDefault and RoleDefaultsManager *)

Record RoleDefault : Type := mkRoleDefault {
  name : str;
  value : Any;
  description : Any
}.

Record RoleDefaultsManager : Type := mkRoleDefaultsManager {
  _defaults : dict RoleDefault;
  _overwrite : bool
}.

(** [RoleDefaultsManager(overwrite)]: [_defaults] is not an argument of
    the constructor and starts as the empty dict. *)
Definition new_manager (overwrite : bool) : RoleDefaultsManager :=
  {| _defaults := []; _overwrite := overwrite |}.

(** The [defaults] property. *)
Definition defaults (self : RoleDefaultsManager) : list RoleDefault :=
  values (_defaults self).

(** The default of the parameter [description] of [add_default]. *)
Definition no_description : str := lit "No description provided.".

(** An optional argument of a call: left out, or passed. Passing
    Python's [None] is [Given VNone]. *)
Inductive arg : Type :=
| Omitted
| Given (v : Any).

Definition arg_or (a : arg) (default : Any) : Any :=
  match a with Omitted => default | Given v => v end.

(** Lines 70-71: a string is stripped, anything else is kept. *)
Definition normalized (value : Any) : Any :=
  match value with
  | VStr s => VStr (strip s)
  | _ => value
  end.

Definition add_default (self : RoleDefaultsManager)
    (name : str) (value : Any) (description : arg) : RoleDefaultsManager :=
  let description := arg_or description (VStr no_description) in
  let value := normalized value in
  if _overwrite self then
    {| _defaults := setitem name (mkRoleDefault name value description)
                            (_defaults self);
       _overwrite := _overwrite self |}
  else
    {| _defaults := setdefault name (mkRoleDefault name value description)
                               (_defaults self);
       _overwrite := _overwrite self |}.

(** ** The projected document *)

(** A value as it is put in the document: as it is, or wrapped in
    ruamel's [LiteralScalarString], which asks the serializer for the
    literal block style. *)
Inductive scalar : Type :=
| Plain (v : Any)
| LiteralScalarString (s : str).

(** ruamel's [CommentedMap]: the ordered key/value pairs, and next to
    them the [(key, before)] arguments of the calls of
    [yaml_set_comment_before_after_key], in call order. *)
Record CommentedMap : Type := mkCommentedMap {
  items : dict scalar;
  comment_before : list (str * Any)
}.

Definition empty_map : CommentedMap :=
  {| items := []; comment_before := [] |}.

(** Lines 84-86: the value that is put under the key. *)
Definition literal_if_multiline (value : Any) : scalar :=
  match value with
  | VStr s => if has_newline s then LiteralScalarString s else Plain (VStr s)
  | v => Plain v
  end.

Definition to_commented_map_body (commented_defaults : CommentedMap)
    (role_default : RoleDefault) : CommentedMap :=
  let value := literal_if_multiline (value role_default) in
  {| items := setitem (name role_default) value (items commented_defaults);
     comment_before := comment_before commented_defaults
                       ++ [(name role_default, description role_default)] |}.

Definition to_commented_map (self : RoleDefaultsManager) : CommentedMap :=
  fold_left to_commented_map_body (defaults self) empty_map.

(** ** The extraction driver *)

Inductive exn : Type :=
| AttributeError.

Inductive result (A : Type) : Type :=
| Ok (a : A)
| Raise (e : exn).

Arguments Ok {A} a.
Arguments Raise {A} e.

Definition bind {A B : Type} (r : result A) (k : A -> result B) : result B :=
  match r with
  | Ok a => k a
  | Raise e => Raise e
  end.

(** A [for] loop over [xs] whose body may raise. *)
Fixpoint for_each {A S : Type} (body : S -> A -> result S)
    (xs : list A) (s : S) : result S :=
  match xs with
  | [] => Ok s
  | x :: xs' => bind (body s x) (for_each body xs')
  end.

(** The body of the loop over [options.items()]. *)
Definition option_body (defaults_manager : RoleDefaultsManager)
    (item : str * Any) : result RoleDefaultsManager :=
  let (name, spec) := item in
  match spec with
  | VDict spec =>
      let value := get spec (lit "default") in
      if negb (is_None value) then
        let description := get spec (lit "description") in
        Ok (add_default defaults_manager name value (Given description))
      else Ok defaults_manager
  | _ => Raise AttributeError
  end.

(** The body of the loop over the entry points. *)
Definition entry_point_body (argument_spec_data : dict Any)
    (defaults_manager : RoleDefaultsManager) (entry_point : str)
    : result RoleDefaultsManager :=
  match get_or argument_spec_data entry_point (VDict []) with
  | VDict entry =>
      let options := get entry (lit "options") in
      if negb (truthy options) then Ok defaults_manager
      else
        match options with
        | VDict options => for_each option_body options defaults_manager
        | _ => Raise AttributeError
        end
  | _ => Raise AttributeError
  end.

(** The manager the driver has filled when its loops are over. *)
Definition collect (argument_spec_data : dict Any)
    (overwrite_duplicate_defaults : bool) : result RoleDefaultsManager :=
  for_each (entry_point_body argument_spec_data)
           (keys argument_spec_data)
           (new_manager overwrite_duplicate_defaults).

Definition generate_commented_defaults (argument_spec_data : dict Any)
    (overwrite_duplicate_defaults : bool) : result CommentedMap :=
  bind (collect argument_spec_data overwrite_duplicate_defaults)
       (fun defaults_manager => Ok (to_commented_map defaults_manager)).

(** ** Paths *)

(** A POSIX [pathlib.Path]: whether it starts at the root, and its
    components. *)
Record Path : Type := mkPath {
  is_absolute : bool;
  components : list str
}.

(** [p.name]: the last component, or the empty string. *)
Definition path_name (p : Path) : str := last (components p) [].

(** [p.parent] *)
Definition parent (p : Path) : Path :=
  {| is_absolute := is_absolute p; components := removelast (components p) |}.

(** [a / b]: an absolute right operand replaces the left one. *)
Definition joinpath (a b : Path) : Path :=
  if is_absolute b then b
  else {| is_absolute := is_absolute a;
          components := components a ++ components b |}.

(** [Path(s)] for a single relative component [s]. *)
Definition rel (s : str) : Path :=
  {| is_absolute := false; components := [s] |}.

(** [str(p)] *)
Definition path_str (p : Path) : str :=
  if is_absolute p then lit "/" ++ join (lit "/") (components p)
  else match components p with
       | [] => lit "."
       | cs => join (lit "/") cs
       end.

(** ** Writing the defaults file *)

Record OSError : Type := mkOSError {
  strerror : str
}.

(** How a call ends: it returns, or [typer.Exit(code)] is raised. *)
Inductive completion : Type :=
| Returns
| Exit (code : Z).

(** What a call of [write_defaults] did: the messages given to
    [typer.echo], the directory it asked for, the file it wrote with the
    lines and the document written to it, and how it ended. *)
Record effects : Type := mkEffects {
  echoed : list str;
  made_dir : option Path;
  written : option (Path * list str * CommentedMap);
  ending : completion
}.

(** [os.linesep] on POSIX. *)
Definition linesep : str := [newline].

(** The path [write_defaults] binds to [output] (lines 126-131). The
    value of [output.resolve()] on line 132 is dropped, so [output]
    stays as it is. *)
Definition output_path (output_file_path role_path : Path) : Path :=
  if Str.eqb (path_name output_file_path) (lit "README.md") then
    joinpath (joinpath role_path (rel (lit "defaults"))) (rel (lit "main.yml"))
  else if is_absolute output_file_path then
    output_file_path
  else
    joinpath (joinpath role_path (rel (lit "defaults"))) output_file_path.

Section WriteDefaults.

(** The operating system: [mkdir p] is the outcome of
    [p.mkdir(parents=True, exist_ok=True)] and [write_file p] that of
    opening [p] for writing and writing it, [None] when no [OSError] is
    raised. *)
Variable mkdir : Path -> option OSError.
Variable write_file : Path -> option OSError.

Definition write_defaults (output_file_path role_path : Path)
    (role_defaults : CommentedMap) : effects :=
  let output := output_path output_file_path role_path in
  match mkdir (parent output) with
  | Some exc =>
      {| echoed :=
           [lit "Unable to create necessary directories for '"
              ++ path_str output ++ lit "'. "
              ++ lit "The following error occured: '{exc.strerror}'."];
         made_dir := None;
         written := None;
         ending := Exit 1 |}
  | None =>
      match write_file output with
      | Some exc =>
          {| echoed :=
               [lit "Unable to write the file '" ++ path_str output
                  ++ lit "'. The following error occured: '"
                  ++ strerror exc ++ lit "'"];
             made_dir := Some (parent output);
             written := None;
             ending := Exit 1 |}
      | None =>
          {| echoed := [];
             made_dir := Some (parent output);
             written :=
               Some (output,
                     [lit "---" ++ linesep;
                      lit "# Automatically generated by aar-doc" ++ linesep],
                     role_defaults);
             ending := Returns |}
      end
  end.

End WriteDefaults.

(** ** Sequences of calls, and what the statements below speak of *)

(** One call [add_default(name, value[, description])]. *)
Record call : Type := mkCall {
  call_name : str;
  call_value : Any;
  call_description : arg
}.

(** The calls of a sequence, made one after the other on [self]. *)
Definition add_defaults (self : RoleDefaultsManager) (calls : list call)
    : RoleDefaultsManager :=
  fold_left
    (fun m c => add_default m (call_name c) (call_value c) (call_description c))
    calls self.

(** The [RoleDefault] a call builds. *)
Definition entry_of (c : call) : RoleDefault :=
  mkRoleDefault (call_name c) (normalized (call_value c))
                (arg_or (call_description c) (VStr no_description)).

Definition named (n : str) (c : call) : bool := Str.eqb (call_name c) n.

(** The first call of a sequence with a given name, and the last one. *)
Definition first_call (n : str) (calls : list call) : option call :=
  find (named n) calls.

Definition last_call (n : str) (calls : list call) : option call :=
  find (named n) (rev calls).

(** The names of a list in the order in which each one first occurs. *)
Fixpoint first_occurrences (ns : list str) : list str :=
  match ns with
  | [] => []
  | n :: ns' =>
      n :: filter (fun k => negb (Str.eqb k n)) (first_occurrences ns')
  end.

(** What every dict of Python and every manager built through
    [add_default] satisfies: keys are pairwise distinct, and an entry is
    stored under its own name. *)
Definition wf_dict {V : Type} (d : dict V) : Prop := NoDup (keys d).

Definition wf_manager (m : RoleDefaultsManager) : Prop :=
  wf_dict (_defaults m) /\
  Forall (fun kv => name (snd kv) = fst kv) (_defaults m).

(** A string that neither starts nor ends with whitespace. *)
Definition trimmed (s : str) : Prop :=
  (forall c t, s = c :: t -> isspace c = false) /\
  (forall t c, s = t ++ [c] -> isspace c = false).

Definition all_space (s : str) : bool := forallb isspace s.

(** ** The calls the driver makes *)

(** What the loops of [generate_commented_defaults] need so that no
    attribute is missing: an option descriptor has [get]; [options] is
    false as a truth value or has [items] and holds such descriptors;
    an entry point descriptor has [get]. *)
Definition option_ok (spec : Any) : bool :=
  match spec with VDict _ => true | _ => false end.

Definition options_ok (options : Any) : bool :=
  negb (truthy options) ||
  match options with
  | VDict options => forallb (fun kv => option_ok (snd kv)) options
  | _ => false
  end.

Definition entry_ok (entry : Any) : bool :=
  match entry with
  | VDict entry => options_ok (get entry (lit "options"))
  | _ => false
  end.

Definition well_shaped (argument_spec_data : dict Any) : bool :=
  forallb (fun kv => entry_ok (snd kv)) argument_spec_data.

(** The call of [add_default] an option gives rise to, if any. *)
Definition option_call (item : str * Any) : list call :=
  match snd item with
  | VDict spec =>
      if is_None (get spec (lit "default")) then []
      else [mkCall (fst item) (get spec (lit "default"))
                   (Given (get spec (lit "description")))]
  | _ => []
  end.

Definition entry_calls (entry : Any) : list call :=
  match entry with
  | VDict entry =>
      match get entry (lit "options") with
      | VDict options => flat_map option_call options
      | _ => []
      end
  | _ => []
  end.

(** The calls of a whole specification, entry point after entry point. *)
Definition spec_calls (argument_spec_data : dict Any) : list call :=
  flat_map (fun kv => entry_calls (snd kv)) argument_spec_data.

(** A manager none of whose entries holds [None] as value. *)
Definition no_None_value (m : RoleDefaultsManager) : Prop :=
  Forall (fun kv => value (snd kv) <> VNone) (_defaults m).

(** A manager all of whose string values are stripped. *)
Definition strings_stripped (m : RoleDefaultsManager) : Prop :=
  Forall (fun kv => forall s, value (snd kv) = VStr s -> trimmed s)
         (_defaults m).

(** Whether a document holds [None] under some key. *)
Definition holds_None (doc : CommentedMap) : bool :=
  existsb (fun kv => match snd kv with Plain VNone => true | _ => false end)
          (items doc).

(** ** Sample data *)

(** Three calls, the first and the last with the same name. *)
Definition sample_calls : list call :=
  [ mkCall (lit "a") (VStr (lit "  x  ")) (Given (VStr (lit "first")));
    mkCall (lit "b") (VInt 2) Omitted;
    mkCall (lit "a") (VInt 3) (Given (VStr (lit "later"))) ].


(** A manager holding a two-line string and an integer. *)
Definition sample_manager : RoleDefaultsManager :=
  add_defaults (new_manager false)
    [ mkCall (lit "motd") (VStr (lit "line1" ++ [newline] ++ lit "line2"))
             (Given (VStr (lit "Banner")));
      mkCall (lit "port") (VInt 22) (Given (VStr (lit "Port"))) ].

(** The example of the specification: two entry points that both
    declare [timeout], an option [retries] whose default is null, and
    an entry point that has no options. *)
Definition sample_spec : dict Any :=
  [ (lit "main",
     VDict [ (lit "options",
              VDict [ (lit "timeout",
                       VDict [ (lit "default", VInt 30);
                               (lit "description",
                                VStr (lit "Timeout in seconds")) ]);
                      (lit "retries", VDict [ (lit "default", VNone) ]) ]) ]);
    (lit "meta", VDict [ (lit "short_description", VStr (lit "A role")) ]);
    (lit "extra",
     VDict [ (lit "options",
              VDict [ (lit "timeout",
                       VDict [ (lit "default", VInt 99);
                               (lit "description",
                                VStr (lit "overridden")) ]) ]) ]) ].

(** One entry point with one option [x] that has the given default and
    no description. *)
Definition one_default (v : Any) : dict Any :=
  [ (lit "main",
     VDict [ (lit "options",
              VDict [ (lit "x", VDict [ (lit "default", v) ]) ]) ]) ].

(** * Facts *)

Unset Implicit Arguments.

(** ** Strings *)

Module StrFacts.

Lemma eqb_spec (a b : str) : reflect (a = b) (Str.eqb a b).
Proof.
  unfold Str.eqb. destruct (list_eq_dec N.eq_dec a b); constructor; assumption.
Qed.

Lemma eqb_refl (a : str) : Str.eqb a a = true.
Proof. destruct (eqb_spec a a); congruence. Qed.

Lemma eqb_eq (a b : str) : Str.eqb a b = true <-> a = b.
Proof. destruct (eqb_spec a b); split; congruence. Qed.

Lemma eqb_neq (a b : str) : Str.eqb a b = false <-> a <> b.
Proof. destruct (eqb_spec a b); split; congruence. Qed.

Lemma eqb_sym (a b : str) : Str.eqb a b = Str.eqb b a.
Proof. destruct (eqb_spec a b), (eqb_spec b a); congruence. Qed.

Lemma isspace_newline : isspace newline = true.
Proof. reflexivity. Qed.

Lemma lstrip_app (s t : str) :
  lstrip (s ++ t) = if all_space s then lstrip t else lstrip s ++ t.
Proof.
  induction s as [|c s IH]; simpl; [reflexivity|].
  destruct (isspace c); simpl; [exact IH | reflexivity].
Qed.

Lemma lstrip_all_space (s : str) : all_space s = true -> lstrip s = [].
Proof.
  induction s as [|c s IH]; simpl; [reflexivity|].
  destruct (isspace c); simpl; [exact IH | discriminate].
Qed.

Lemma lstrip_nil_all_space (s : str) : lstrip s = [] -> all_space s = true.
Proof.
  induction s as [|c s IH]; simpl; [reflexivity|].
  destruct (isspace c); simpl; [exact IH | discriminate].
Qed.

Lemma lstrip_head (s : str) c t : lstrip s = c :: t -> isspace c = false.
Proof.
  induction s as [|a s IH]; simpl; [discriminate|].
  destruct (isspace a) eqn:Ha; [exact IH|].
  intros E; injection E as -> _; exact Ha.
Qed.

Lemma lstrip_split (s : str) :
  exists pre, s = pre ++ lstrip s /\ all_space pre = true.
Proof.
  induction s as [|c s (pre & E & Hp)]; simpl.
  - exists []; split; reflexivity.
  - destruct (isspace c) eqn:Hc.
    + exists (c :: pre); simpl; rewrite Hc, Hp; split; [congruence | reflexivity].
    + exists []; split; reflexivity.
Qed.

Lemma all_space_rev (s : str) : all_space (rev s) = all_space s.
Proof.
  unfold all_space. induction s as [|c s IH]; simpl; [reflexivity|].
  rewrite forallb_app, IH; simpl. rewrite andb_true_r, andb_comm; reflexivity.
Qed.

Lemma all_space_app (s t : str) :
  all_space (s ++ t) = all_space s && all_space t.
Proof. apply forallb_app. Qed.

Lemma rstrip_split (s : str) :
  exists post, s = rstrip s ++ post /\ all_space post = true.
Proof.
  unfold rstrip. destruct (lstrip_split (rev s)) as (pre & E & Hp).
  exists (rev pre); split.
  - rewrite <- rev_app_distr, <- E, rev_involutive; reflexivity.
  - rewrite all_space_rev; exact Hp.
Qed.

Lemma rstrip_space (s post : str) :
  all_space post = true -> rstrip (s ++ post) = rstrip s.
Proof.
  intros Hp. unfold rstrip.
  rewrite rev_app_distr, lstrip_app, all_space_rev, Hp; reflexivity.
Qed.

(** [strip] splits a string into leading whitespace, the stripped
    string, and trailing whitespace. *)
Lemma strip_split (s : str) :
  exists pre post,
    s = pre ++ strip s ++ post /\ all_space pre = true /\ all_space post = true.
Proof.
  destruct (lstrip_split s) as (pre & E1 & Hpre).
  destruct (rstrip_split (lstrip s)) as (post & E2 & Hpost).
  exists pre, post; unfold strip; repeat split; try assumption.
  rewrite <- E2; exact E1.
Qed.

Lemma strip_trimmed (s : str) : trimmed (strip s).
Proof.
  split.
  - intros c t E.
    destruct (rstrip_split (lstrip s)) as (post & E2 & _).
    fold (strip s) in E2. rewrite E in E2; simpl in E2.
    eapply lstrip_head; exact E2.
  - intros t c E. unfold strip, rstrip in E.
    apply (f_equal (@rev N)) in E.
    rewrite rev_involutive, rev_app_distr in E; simpl in E.
    eapply lstrip_head; exact E.
Qed.

Lemma strip_of_trimmed (s : str) : trimmed s -> strip s = s.
Proof.
  intros [Hh Hl]. unfold strip.
  assert (E : lstrip s = s).
  { destruct s as [|c t]; [reflexivity|]; simpl.
    rewrite (Hh c t eq_refl); reflexivity. }
  rewrite E. unfold rstrip.
  destruct (rev s) as [|c r] eqn:Er.
  - apply (f_equal (@rev N)) in Er. rewrite rev_involutive in Er.
    subst s; reflexivity.
  - apply (f_equal (@rev N)) in Er. rewrite rev_involutive in Er; simpl in Er.
    simpl. rewrite (Hl (rev r) c Er). simpl. symmetry; exact Er.
Qed.

Lemma strip_idempotent (s : str) : strip (strip s) = strip s.
Proof. apply strip_of_trimmed, strip_trimmed. Qed.

(** Whitespace around a string does not change what [strip] returns. *)
Lemma strip_frame (pre mid post : str) :
  all_space pre = true -> all_space post = true ->
  strip (pre ++ mid ++ post) = strip mid.
Proof.
  intros Hpre Hpost. unfold strip.
  rewrite lstrip_app, Hpre, lstrip_app.
  destruct (all_space mid) eqn:Hm.
  - rewrite (lstrip_all_space post Hpost), (lstrip_all_space mid Hm).
    reflexivity.
  - apply rstrip_space; exact Hpost.
Qed.

Lemma strip_unique (s pre t post : str) :
  s = pre ++ t ++ post -> all_space pre = true -> all_space post = true ->
  trimmed t -> strip s = t.
Proof.
  intros -> Hpre Hpost Ht.
  rewrite strip_frame by assumption. apply strip_of_trimmed; exact Ht.
Qed.

Lemma has_newline_app (s t : str) :
  has_newline (s ++ t) = has_newline s || has_newline t.
Proof. apply existsb_app. Qed.

Lemma has_newline_In (s : str) : has_newline s = true <-> In newline s.
Proof.
  unfold has_newline. rewrite existsb_exists. split.
  - intros (c & Hin & E). apply N.eqb_eq in E. subst c; exact Hin.
  - intros Hin. exists newline; split; [exact Hin | apply N.eqb_refl].
Qed.

Lemma has_newline_strip (s : str) :
  has_newline (strip s) = true -> has_newline s = true.
Proof.
  intros H. destruct (strip_split s) as (pre & post & E & _).
  rewrite E, !has_newline_app, H, orb_true_r; reflexivity.
Qed.

(** A newline that is left after [strip] has characters on both sides. *)
Lemma has_newline_strip_interior (s : str) :
  has_newline (strip s) = true ->
  exists a b, strip s = a ++ newline :: b /\ a <> [] /\ b <> [].
Proof.
  intros H. apply has_newline_In, in_split in H.
  destruct H as (a & b & E). exists a, b. split; [exact E|].
  destruct (strip_trimmed s) as [Hh Hl]. split; intros ->.
  - simpl in E. pose proof (Hh _ _ E) as F.
    rewrite isspace_newline in F; discriminate.
  - pose proof (Hl _ _ E) as F.
    rewrite isspace_newline in F; discriminate.
Qed.

Lemma prefixb_app (p s : str) : prefixb p (p ++ s) = true.
Proof.
  induction p as [|c p IH]; simpl; [reflexivity|].
  rewrite N.eqb_refl; exact IH.
Qed.

Lemma contains_prefix (needle hay : str) :
  prefixb needle hay = true -> contains needle hay = true.
Proof.
  intros H. destruct hay; simpl; rewrite H; reflexivity.
Qed.

Lemma contains_app (needle a b : str) :
  contains needle (a ++ needle ++ b) = true.
Proof.
  induction a as [|c a IH].
  - change ([] ++ needle ++ b) with (needle ++ b).
    apply contains_prefix, prefixb_app.
  - simpl. rewrite IH. apply orb_true_r.
Qed.

End StrFacts.

(** ** Dicts *)

Module DictFacts.
Import StrFacts.

Section Facts.
Variable V : Type.
Implicit Types (d : dict V) (k : str) (v : V).

Lemma lookup_app k d1 d2 :
  lookup k (d1 ++ d2) =
  match lookup k d1 with Some v => Some v | None => lookup k d2 end.
Proof.
  induction d1 as [|[k' v'] d1 IH]; simpl; [reflexivity|].
  destruct (Str.eqb k k'); [reflexivity | exact IH].
Qed.

Lemma lookup_None k d : lookup k d = None <-> ~ In k (keys d).
Proof.
  induction d as [|[k' v'] d IH]; simpl.
  - tauto.
  - destruct (eqb_spec k k') as [->|Hne].
    + split; [discriminate | intros H; exfalso; apply H; left; reflexivity].
    + rewrite IH. split; [intros H [E|Hin]; [congruence | tauto] | tauto].
Qed.

Lemma mem_true k d : mem k d = true <-> In k (keys d).
Proof.
  unfold mem. pose proof (lookup_None k d) as H.
  destruct (lookup k d).
  - split; [intros _ | reflexivity].
    destruct (in_dec (list_eq_dec N.eq_dec) k (keys d)) as [Hin|Hn];
      [exact Hin | apply H in Hn; discriminate].
  - split; [discriminate | intros Hin; exfalso; apply (proj1 H eq_refl Hin)].
Qed.

Lemma mem_false k d : mem k d = false <-> ~ In k (keys d).
Proof.
  rewrite <- mem_true. destruct (mem k d); split; congruence.
Qed.

Lemma lookup_Some_In k v d : lookup k d = Some v -> In (k, v) d.
Proof.
  induction d as [|[k' v'] d IH]; simpl; [discriminate|].
  destruct (eqb_spec k k') as [->|Hne].
  - intros E; injection E as ->; left; reflexivity.
  - intros E; right; exact (IH E).
Qed.

Lemma In_lookup k v d : wf_dict d -> In (k, v) d -> lookup k d = Some v.
Proof.
  unfold wf_dict. induction d as [|[k' v'] d IH]; simpl; [tauto|].
  intros Hnd [E|Hin]; inversion Hnd as [|? ? Hni Hnd']; subst.
  - injection E as -> ->. rewrite eqb_refl; reflexivity.
  - destruct (eqb_spec k k') as [->|Hne].
    + exfalso; apply Hni. change k' with (fst (k', v)). apply in_map; exact Hin.
    + apply IH; assumption.
Qed.

Lemma lookup_setitem_eq k v d : lookup k (setitem k v d) = Some v.
Proof.
  induction d as [|[k' v'] d IH]; simpl.
  - rewrite eqb_refl; reflexivity.
  - destruct (Str.eqb k k') eqn:E; simpl; rewrite E; [reflexivity | exact IH].
Qed.

Lemma lookup_setitem_neq k k' v d :
  k' <> k -> lookup k' (setitem k v d) = lookup k' d.
Proof.
  intros Hne. induction d as [|[k0 v0] d IH]; simpl.
  - apply eqb_neq in Hne; rewrite Hne; reflexivity.
  - destruct (eqb_spec k k0) as [->|Hk]; simpl.
    + apply eqb_neq in Hne; rewrite Hne; reflexivity.
    + destruct (Str.eqb k' k0); [reflexivity | exact IH].
Qed.

Lemma keys_setitem k v d :
  keys (setitem k v d) = if mem k d then keys d else keys d ++ [k].
Proof.
  unfold mem. induction d as [|[k' v'] d IH]; simpl; [reflexivity|].
  destruct (Str.eqb k k'); simpl; [reflexivity|].
  rewrite IH. destruct (lookup k d); reflexivity.
Qed.

Lemma keys_setdefault k v d :
  keys (setdefault k v d) = if mem k d then keys d else keys d ++ [k].
Proof.
  unfold setdefault. destruct (mem k d); [reflexivity|].
  unfold keys; rewrite map_app; reflexivity.
Qed.

Lemma lookup_setdefault k k' v d :
  lookup k' (setdefault k v d) =
  match lookup k' d with
  | Some x => Some x
  | None => if Str.eqb k' k then Some v else None
  end.
Proof.
  unfold setdefault, mem. destruct (lookup k d) eqn:Hk.
  - destruct (lookup k' d) eqn:Hk'; [reflexivity|].
    destruct (eqb_spec k' k) as [->|]; [congruence | reflexivity].
  - rewrite lookup_app; simpl. reflexivity.
Qed.

Lemma setitem_setitem k v v' d :
  setitem k v (setitem k v' d) = setitem k v d.
Proof.
  induction d as [|[k0 v0] d IH]; simpl.
  - rewrite eqb_refl; reflexivity.
  - destruct (Str.eqb k k0) eqn:E; simpl; rewrite E; [reflexivity|].
    rewrite IH; reflexivity.
Qed.

Lemma setdefault_present k v d : mem k d = true -> setdefault k v d = d.
Proof. unfold setdefault; intros ->; reflexivity. Qed.

Lemma setitem_absent k v d : mem k d = false -> setitem k v d = d ++ [(k, v)].
Proof.
  unfold mem. induction d as [|[k0 v0] d IH]; simpl; [reflexivity|].
  destruct (Str.eqb k k0); [discriminate|].
  intros H; rewrite (IH H); reflexivity.
Qed.

Lemma wf_setitem k v d : wf_dict d -> wf_dict (setitem k v d).
Proof.
  unfold wf_dict. intros H. rewrite keys_setitem.
  destruct (mem k d) eqn:E; [exact H|].
  apply mem_false in E.
  apply NoDup_app; [exact H | repeat constructor; simpl; tauto |].
  intros x Hx [<-|[]]; exact (E Hx).
Qed.

Lemma wf_setdefault k v d : wf_dict d -> wf_dict (setdefault k v d).
Proof.
  unfold wf_dict. intros H.
  rewrite keys_setdefault, <- (keys_setitem k v). apply wf_setitem; exact H.
Qed.

End Facts.
End DictFacts.

(** ** The manager *)

Module ManagerFacts.
Import StrFacts DictFacts.

Lemma find_app {A : Type} (f : A -> bool) (l1 l2 : list A) :
  find f (l1 ++ l2) =
  match find f l1 with Some x => Some x | None => find f l2 end.
Proof.
  induction l1 as [|a l1 IH]; simpl; [reflexivity|].
  destruct (f a); [reflexivity | exact IH].
Qed.

Lemma filter_all {A : Type} (f : A -> bool) (l : list A) :
  (forall x, f x = true) -> filter f l = l.
Proof.
  intros H. induction l as [|a l IH]; simpl; [reflexivity|].
  rewrite H, IH; reflexivity.
Qed.

Lemma existsb_eqb_In (k : str) (ks : list str) :
  existsb (Str.eqb k) ks = true <-> In k ks.
Proof.
  rewrite existsb_exists. split.
  - intros (x & Hin & E). apply eqb_eq in E. subst x; exact Hin.
  - intros Hin. exists k; split; [exact Hin | apply eqb_refl].
Qed.

Lemma filter_seen_absorb (n : str) (ks L : list str) :
  In n ks ->
  filter (fun k => negb (existsb (Str.eqb k) ks))
         (filter (fun k => negb (Str.eqb k n)) L) =
  filter (fun k => negb (existsb (Str.eqb k) ks)) L.
Proof.
  intros Hin. induction L as [|x L IH]; simpl; [reflexivity|].
  destruct (eqb_spec x n) as [->|Hne]; simpl.
  - rewrite (proj2 (existsb_eqb_In n ks) Hin); simpl. exact IH.
  - rewrite IH; reflexivity.
Qed.

Lemma filter_seen_snoc (n : str) (ks L : list str) :
  filter (fun k => negb (existsb (Str.eqb k) (ks ++ [n]))) L =
  filter (fun k => negb (existsb (Str.eqb k) ks))
         (filter (fun k => negb (Str.eqb k n)) L).
Proof.
  induction L as [|x L IH]; simpl; [reflexivity|].
  rewrite existsb_app; simpl. rewrite orb_false_r.
  destruct (Str.eqb x n); simpl.
  - rewrite orb_true_r; simpl. exact IH.
  - rewrite orb_false_r, IH. reflexivity.
Qed.

Lemma In_first_occurrences (n : str) (ns : list str) :
  In n (first_occurrences ns) <-> In n ns.
Proof.
  induction ns as [|a ns IH]; simpl; [tauto|].
  rewrite filter_In, IH, negb_true_iff, eqb_neq.
  destruct (eqb_spec a n); [tauto|]. split; [tauto|].
  intros [E|H]; [tauto | right; split; [exact H | congruence]].
Qed.

Lemma NoDup_first_occurrences (ns : list str) : NoDup (first_occurrences ns).
Proof.
  induction ns as [|a ns IH]; simpl; constructor.
  - rewrite filter_In, eqb_refl. intros [_ H]; discriminate.
  - apply NoDup_filter; exact IH.
Qed.

Lemma overwrite_add_default m n v d :
  _overwrite (add_default m n v d) = _overwrite m.
Proof. unfold add_default. destruct (_overwrite m) eqn:E; simpl; congruence. Qed.

Lemma add_defaults_cons m c cs :
  add_defaults m (c :: cs) =
  add_defaults (add_default m (call_name c) (call_value c) (call_description c))
               cs.
Proof. reflexivity. Qed.

Lemma overwrite_add_defaults calls m :
  _overwrite (add_defaults m calls) = _overwrite m.
Proof.
  revert m. induction calls as [|c cs IH]; intros m; [reflexivity|].
  rewrite add_defaults_cons, IH. apply overwrite_add_default.
Qed.

Lemma keys_add_default m n v d :
  keys (_defaults (add_default m n v d)) =
  if mem n (_defaults m) then keys (_defaults m) else keys (_defaults m) ++ [n].
Proof.
  unfold add_default. destruct (_overwrite m); simpl.
  - apply keys_setitem.
  - apply keys_setdefault.
Qed.

Lemma lookup_add_default_overwrite m n v d k :
  _overwrite m = true ->
  lookup k (_defaults (add_default m n v d)) =
  if Str.eqb k n
  then Some (mkRoleDefault n (normalized v) (arg_or d (VStr no_description)))
  else lookup k (_defaults m).
Proof.
  intros Ho. unfold add_default. rewrite Ho; simpl.
  destruct (eqb_spec k n) as [->|Hne].
  - apply lookup_setitem_eq.
  - apply lookup_setitem_neq; exact Hne.
Qed.

Lemma lookup_add_default_keep m n v d k :
  _overwrite m = false ->
  lookup k (_defaults (add_default m n v d)) =
  match lookup k (_defaults m) with
  | Some rd => Some rd
  | None =>
      if Str.eqb k n
      then Some (mkRoleDefault n (normalized v) (arg_or d (VStr no_description)))
      else None
  end.
Proof.
  intros Ho. unfold add_default. rewrite Ho; simpl. apply lookup_setdefault.
Qed.

(** When the call stores: the manager overwrites, or the name is new. *)
Lemma lookup_add_default_stored m n v d :
  _overwrite m = true \/ mem n (_defaults m) = false ->
  lookup n (_defaults (add_default m n v d)) =
  Some (mkRoleDefault n (normalized v) (arg_or d (VStr no_description))).
Proof.
  destruct (_overwrite m) eqn:Ho.
  - intros _. rewrite lookup_add_default_overwrite, eqb_refl by exact Ho.
    reflexivity.
  - intros [H|H]; [discriminate|].
    rewrite lookup_add_default_keep by exact Ho.
    unfold mem in H. destruct (lookup n (_defaults m)); [discriminate|].
    rewrite eqb_refl; reflexivity.
Qed.

Lemma add_default_present_keep m n v d :
  _overwrite m = false -> mem n (_defaults m) = true ->
  add_default m n v d = m.
Proof.
  intros Ho Hm. unfold add_default. rewrite Ho.
  rewrite setdefault_present by exact Hm.
  destruct m; simpl in *; subst; reflexivity.
Qed.

Lemma wf_new_manager b : wf_manager (new_manager b).
Proof. split; [constructor | constructor]. Qed.

Lemma wf_add_default m n v d :
  wf_manager m -> wf_manager (add_default m n v d).
Proof.
  intros [Hnd Hnames]. split.
  - unfold wf_dict. rewrite keys_add_default, 
      <- (keys_setitem _ n (entry_of (mkCall n v d))).
    apply wf_setitem; exact Hnd.
  - unfold add_default. destruct (_overwrite m); simpl.
    + clear Hnd. induction (_defaults m) as [|[k rd] l IH]; simpl.
      * repeat constructor.
      * inversion Hnames as [|? ? Hk Hl]; subst.
        destruct (eqb_spec n k) as [->|Hne]; constructor; simpl; auto.
    + unfold setdefault. destruct (mem n (_defaults m)); [exact Hnames|].
      apply Forall_app; split; [exact Hnames | repeat constructor].
Qed.

Lemma wf_add_defaults calls m :
  wf_manager m -> wf_manager (add_defaults m calls).
Proof.
  revert m. induction calls as [|c cs IH]; intros m H; [exact H|].
  rewrite add_defaults_cons. apply IH, wf_add_default; exact H.
Qed.

(** The keys after a sequence of calls: the keys before, then the new
    names in the order of their first call. *)
Lemma keys_add_defaults calls m :
  keys (_defaults (add_defaults m calls)) =
  keys (_defaults m) ++
  filter (fun k => negb (existsb (Str.eqb k) (keys (_defaults m))))
         (first_occurrences (map call_name calls)).
Proof.
  revert m. induction calls as [|c cs IH]; intros m.
  - simpl. rewrite app_nil_r; reflexivity.
  - rewrite add_defaults_cons, IH, keys_add_default.
    cbn [map first_occurrences filter].
    destruct (mem (call_name c) (_defaults m)) eqn:Hm.
    + apply mem_true in Hm.
      rewrite (proj2 (existsb_eqb_In _ _) Hm); cbn [negb].
      rewrite filter_seen_absorb by exact Hm. reflexivity.
    + apply mem_false in Hm.
      destruct (existsb (Str.eqb (call_name c)) (keys (_defaults m))) eqn:E.
      * apply existsb_eqb_In in E. contradiction.
      * cbn [negb]. rewrite filter_seen_snoc, <- app_assoc. reflexivity.
Qed.

Lemma keys_add_defaults_new calls b :
  keys (_defaults (add_defaults (new_manager b) calls)) =
  first_occurrences (map call_name calls).
Proof.
  rewrite keys_add_defaults. simpl. apply filter_all. reflexivity.
Qed.

Lemma lookup_add_defaults_keep calls m k :
  _overwrite m = false ->
  lookup k (_defaults (add_defaults m calls)) =
  match lookup k (_defaults m) with
  | Some rd => Some rd
  | None => option_map entry_of (first_call k calls)
  end.
Proof.
  revert m. induction calls as [|c cs IH]; intros m Ho.
  - simpl. destruct (lookup k (_defaults m)); reflexivity.
  - rewrite add_defaults_cons, IH by (rewrite overwrite_add_default; exact Ho).
    rewrite lookup_add_default_keep by exact Ho.
    destruct (lookup k (_defaults m)); [reflexivity|].
    unfold first_call, named; simpl. rewrite (eqb_sym (call_name c) k).
    destruct (Str.eqb k (call_name c)); reflexivity.
Qed.

Lemma lookup_add_defaults_overwrite calls m k :
  _overwrite m = true ->
  lookup k (_defaults (add_defaults m calls)) =
  match last_call k calls with
  | Some c => Some (entry_of c)
  | None => lookup k (_defaults m)
  end.
Proof.
  revert m. induction calls as [|c cs IH]; intros m Ho.
  - reflexivity.
  - rewrite add_defaults_cons, IH by (rewrite overwrite_add_default; exact Ho).
    unfold last_call; simpl rev. rewrite find_app.
    destruct (find (named k) (rev cs)); [reflexivity|].
    rewrite lookup_add_default_overwrite by exact Ho.
    unfold named; simpl. rewrite (eqb_sym (call_name c) k).
    destruct (Str.eqb k (call_name c)); reflexivity.
Qed.

(** *** The projection *)

Lemma comment_before_fold rds acc :
  comment_before (fold_left to_commented_map_body rds acc) =
  comment_before acc ++ map (fun rd => (name rd, description rd)) rds.
Proof.
  revert acc. induction rds as [|rd rds IH]; intros acc; simpl.
  - rewrite app_nil_r; reflexivity.
  - rewrite IH; simpl. rewrite <- app_assoc; reflexivity.
Qed.

Lemma items_fold rds acc :
  NoDup (keys (items acc) ++ map name rds) ->
  items (fold_left to_commented_map_body rds acc) =
  items acc ++
  map (fun rd => (name rd, literal_if_multiline (value rd))) rds.
Proof.
  revert acc. induction rds as [|rd rds IH]; intros acc Hnd; simpl.
  - rewrite app_nil_r; reflexivity.
  - assert (Hfresh : mem (name rd) (items acc) = false).
    { apply mem_false. intros Hin.
      apply NoDup_remove_2 in Hnd. apply Hnd, in_or_app; left; exact Hin. }
    rewrite IH; simpl; rewrite setitem_absent by exact Hfresh.
    + rewrite <- app_assoc; reflexivity.
    + unfold keys. rewrite map_app; simpl. rewrite <- app_assoc. exact Hnd.
Qed.

Lemma names_of_defaults m :
  wf_manager m -> map name (defaults m) = keys (_defaults m).
Proof.
  intros [_ H]. unfold defaults, values, keys.
  induction H as [|[k rd] l Hk _ IH]; simpl in *; congruence.
Qed.

Lemma items_to_commented_map m :
  wf_manager m ->
  items (to_commented_map m) =
  map (fun rd => (name rd, literal_if_multiline (value rd))) (defaults m).
Proof.
  intros Hwf. unfold to_commented_map. rewrite items_fold; [reflexivity|].
  simpl. rewrite names_of_defaults by exact Hwf. exact (proj1 Hwf).
Qed.

Lemma keys_to_commented_map m :
  wf_manager m -> keys (items (to_commented_map m)) = keys (_defaults m).
Proof.
  intros Hwf. rewrite items_to_commented_map by exact Hwf.
  unfold keys at 1. rewrite map_map; simpl.
  apply names_of_defaults; exact Hwf.
Qed.

Lemma lookup_map_entries {B : Type} (f : RoleDefault -> B)
    (d : dict RoleDefault) k :
  Forall (fun kv => name (snd kv) = fst kv) d ->
  lookup k (map (fun rd => (name rd, f rd)) (values d)) =
  option_map f (lookup k d).
Proof.
  intros H. induction H as [|[k' rd] l Hk _ IH]; simpl in *; [reflexivity|].
  rewrite Hk. destruct (Str.eqb k k'); [reflexivity | exact IH].
Qed.

Lemma lookup_to_commented_map m k :
  wf_manager m ->
  lookup k (items (to_commented_map m)) =
  option_map (fun rd => literal_if_multiline (value rd))
             (lookup k (_defaults m)) /\
  lookup k (comment_before (to_commented_map m)) =
  option_map description (lookup k (_defaults m)).
Proof.
  intros Hwf. split.
  - rewrite items_to_commented_map by exact Hwf.
    apply lookup_map_entries, Hwf.
  - unfold to_commented_map. rewrite comment_before_fold; simpl.
    apply lookup_map_entries, Hwf.
Qed.

Lemma find_absent {A : Type} (f : A -> bool) (l : list A) :
  (forall x, In x l -> f x = false) -> find f l = None.
Proof.
  induction l as [|a l IH]; simpl; intros H; [reflexivity|].
  rewrite (H a) by (left; reflexivity). apply IH; auto.
Qed.

Lemma first_call_split calls pre c post :
  calls = pre ++ c :: post ->
  (forall c', In c' pre -> call_name c' <> call_name c) ->
  first_call (call_name c) calls = Some c.
Proof.
  intros -> H. unfold first_call. rewrite find_app, find_absent.
  - simpl. unfold named at 1. rewrite eqb_refl; reflexivity.
  - intros x Hx. apply eqb_neq, H, Hx.
Qed.

Lemma last_call_split calls pre c post :
  calls = pre ++ c :: post ->
  (forall c', In c' post -> call_name c' <> call_name c) ->
  last_call (call_name c) calls = Some c.
Proof.
  intros -> H. unfold last_call.
  rewrite rev_app_distr; simpl. rewrite <- app_assoc, find_app, find_absent.
  - simpl. unfold named at 1. rewrite eqb_refl; reflexivity.
  - intros x Hx. apply eqb_neq, H, in_rev, Hx.
Qed.

Lemma first_call_named n calls c :
  first_call n calls = Some c -> In c calls /\ call_name c = n.
Proof.
  intros H. apply find_some in H. destruct H as [Hin E].
  split; [exact Hin | apply eqb_eq, E].
Qed.

Lemma first_call_present n calls :
  In n (map call_name calls) -> exists c, first_call n calls = Some c.
Proof.
  intros Hin. apply in_map_iff in Hin. destruct Hin as (c & E & Hc).
  destruct (first_call n calls) as [c'|] eqn:F; [exists c'; reflexivity|].
  exfalso. pose proof (find_none _ _ F c Hc) as G.
  unfold named in G. apply eqb_neq in G. contradiction.
Qed.

Lemma lookup_of_entry m rd :
  wf_manager m -> In rd (defaults m) ->
  lookup (name rd) (_defaults m) = Some rd.
Proof.
  intros Hwf Hin. unfold defaults, values in Hin.
  apply in_map_iff in Hin. destruct Hin as ([k rd'] & E & Hin).
  simpl in E; subst rd'.
  pose proof (proj1 (Forall_forall _ _) (proj2 Hwf) _ Hin) as Hk.
  simpl in Hk. subst k.
  apply In_lookup; [exact (proj1 Hwf) | exact Hin].
Qed.

End ManagerFacts.

(** ** The driver *)

Module DriverFacts.
Import StrFacts DictFacts ManagerFacts.

Section Loops.
Variables A S : Type.
Implicit Types (body : S -> A -> result S) (xs : list A) (s : S).

Lemma for_each_app body xs ys s :
  for_each body (xs ++ ys) s = bind (for_each body xs s) (for_each body ys).
Proof.
  revert s. induction xs as [|x xs IH]; intros s; simpl; [reflexivity|].
  destruct (body s x); simpl; [apply IH | reflexivity].
Qed.

Lemma for_each_ext body1 body2 xs s :
  (forall x, In x xs -> forall s', body1 s' x = body2 s' x) ->
  for_each body1 xs s = for_each body2 xs s.
Proof.
  revert s. induction xs as [|x xs IH]; intros s H; simpl; [reflexivity|].
  rewrite (H x) by (left; reflexivity).
  destruct (body2 s x); simpl; [|reflexivity].
  apply IH. intros y Hy. apply H. right; exact Hy.
Qed.

(** An iteration that returns its state unchanged can be left out. *)
Lemma for_each_skip body pre x post s :
  (forall s', body s' x = Ok s') ->
  for_each body (pre ++ x :: post) s = for_each body (pre ++ post) s.
Proof.
  intros H. rewrite !for_each_app. simpl.
  destruct (for_each body pre s); simpl; [|reflexivity].
  rewrite H. reflexivity.
Qed.

End Loops.

Lemma option_body_null m n spec :
  get spec (lit "default") = VNone -> option_body m (n, VDict spec) = Ok m.
Proof. intros H. simpl. rewrite H. reflexivity. Qed.

Lemma option_body_default m n spec :
  get spec (lit "default") <> VNone ->
  option_body m (n, VDict spec) =
  Ok (add_default m n (get spec (lit "default"))
                  (Given (get spec (lit "description")))).
Proof.
  intros H. simpl. destruct (get spec (lit "default")); try reflexivity.
  contradiction.
Qed.

Lemma entry_point_body_ext data data' m k :
  lookup k data = lookup k data' ->
  entry_point_body data m k = entry_point_body data' m k.
Proof.
  intros H. unfold entry_point_body, get_or. rewrite H. reflexivity.
Qed.

Lemma entry_point_body_falsy data m ep entry :
  lookup ep data = Some (VDict entry) ->
  truthy (get entry (lit "options")) = false ->
  entry_point_body data m ep = Ok m.
Proof.
  intros H F. unfold entry_point_body, get_or. rewrite H, F. reflexivity.
Qed.

Lemma entry_point_body_options data m ep entry options :
  lookup ep data = Some (VDict entry) ->
  get entry (lit "options") = VDict options ->
  entry_point_body data m ep = for_each option_body options m.
Proof.
  intros H F. unfold entry_point_body, get_or. rewrite H, F.
  destruct options; reflexivity.
Qed.

(** Replacing the descriptor of one entry point by one that the loop
    body treats alike does not change what is collected. *)
Lemma collect_replace data ow ep e' :
  mem ep data = true ->
  (forall m, entry_point_body data m ep =
             entry_point_body (setitem ep e' data) m ep) ->
  collect data ow = collect (setitem ep e' data) ow.
Proof.
  intros Hm H. unfold collect. rewrite keys_setitem, Hm.
  apply for_each_ext. intros k _ m.
  destruct (eqb_spec k ep) as [->|Hne]; [apply H|].
  apply entry_point_body_ext. symmetry. apply lookup_setitem_neq; exact Hne.
Qed.

(** Removing an entry point that the loop body skips does not change
    what is collected. *)
Lemma collect_remove pre ep entry post ow :
  wf_dict (pre ++ (ep, VDict entry) :: post) ->
  truthy (get entry (lit "options")) = false ->
  collect (pre ++ (ep, VDict entry) :: post) ow = collect (pre ++ post) ow.
Proof.
  intros Hwf F. unfold collect, wf_dict, keys in *.
  rewrite !map_app in *. simpl in *.
  pose proof (NoDup_remove_2 _ _ _ Hwf) as Hni.
  assert (Hep : lookup ep (pre ++ (ep, VDict entry) :: post)
                = Some (VDict entry)).
  { rewrite lookup_app.
    destruct (lookup ep pre) eqn:E.
    - exfalso. apply Hni, in_or_app. left.
      apply lookup_Some_In in E.
      change ep with (fst (ep, a)). apply in_map; exact E.
    - simpl. rewrite eqb_refl. reflexivity. }
  rewrite for_each_skip
    by (intros m; apply (entry_point_body_falsy _ _ _ _ Hep F)).
  apply for_each_ext. intros k Hk m. apply entry_point_body_ext.
  rewrite !lookup_app. destruct (lookup k pre); [reflexivity|].
  simpl. destruct (eqb_spec k ep) as [->|Hne]; [contradiction | reflexivity].
Qed.

End DriverFacts.

(** * The collector *)

Import StrFacts DictFacts ManagerFacts.

(** C1. On a manager built with [overwrite = false], after any sequence
    of [add_default] calls: no two entries have the same name; the entry
    stored for a name is the one the first call with that name built
    (its value, stripped when it is a string, and its description);
    every entry comes from such a first call; and a further call with a
    name that was already added leaves the manager as it is. The call
    returns a manager in every case: there is no error. *)
Theorem add_default_first_call_wins (calls : list call) :
  let m := add_defaults (new_manager false) calls in
  NoDup (map name (defaults m)) /\
  (forall pre c post,
      calls = pre ++ c :: post ->
      (forall c', In c' pre -> call_name c' <> call_name c) ->
      lookup (call_name c) (_defaults m) = Some (entry_of c) /\
      In (entry_of c) (defaults m)) /\
  (forall rd, In rd (defaults m) ->
      exists c, first_call (name rd) calls = Some c /\ rd = entry_of c) /\
  (forall n v d, In n (map call_name calls) -> add_default m n v d = m).
Proof.
  intros m.
  assert (Hwf : wf_manager m) by apply wf_add_defaults, wf_new_manager.
  assert (Hlk : forall n,
             lookup n (_defaults m) = option_map entry_of (first_call n calls)).
  { intros n. unfold m. rewrite lookup_add_defaults_keep by reflexivity.
    reflexivity. }
  repeat split.
  - rewrite names_of_defaults by exact Hwf. exact (proj1 Hwf).
  - rewrite Hlk, (first_call_split _ _ _ _ H H0). reflexivity.
  - assert (E : lookup (call_name c) (_defaults m) = Some (entry_of c)).
    { rewrite Hlk, (first_call_split _ _ _ _ H H0). reflexivity. }
    apply lookup_Some_In in E.
    change (entry_of c) with (snd (call_name c, entry_of c)).
    apply in_map; exact E.
  - intros rd Hin. unfold defaults, values in Hin.
    apply in_map_iff in Hin. destruct Hin as ([k rd'] & E & Hin).
    simpl in E; subst rd'.
    pose proof (proj1 (Forall_forall _ _) (proj2 Hwf) _ Hin) as Hk.
    simpl in Hk. subst k.
    apply In_lookup in Hin; [| exact (proj1 Hwf)].
    rewrite Hlk in Hin.
    destruct (first_call (name rd) calls) as [c|]; [|discriminate].
    exists c. split; [reflexivity|]. simpl in Hin. congruence.
  - intros n v d Hin. apply add_default_present_keep.
    + apply overwrite_add_defaults.
    + apply mem_true. unfold m. rewrite keys_add_defaults_new.
      apply In_first_occurrences; exact Hin.
Qed.

(** C2. On a manager built with [overwrite = true], after any sequence
    of [add_default] calls the entry of a name is the one its last call
    built, in the collection and in the projected document (value and
    comment); the names of the collection and the keys of the document
    come in the order of the first call of each name, and this order is
    the same whatever the overwrite policy. *)
Theorem add_default_overwrite_last_call_wins (calls : list call) :
  let m := add_defaults (new_manager true) calls in
  (forall pre c post,
      calls = pre ++ c :: post ->
      (forall c', In c' post -> call_name c' <> call_name c) ->
      lookup (call_name c) (_defaults m) = Some (entry_of c) /\
      lookup (call_name c) (items (to_commented_map m)) =
        Some (literal_if_multiline (normalized (call_value c))) /\
      lookup (call_name c) (comment_before (to_commented_map m)) =
        Some (arg_or (call_description c) (VStr no_description))) /\
  map name (defaults m) = first_occurrences (map call_name calls) /\
  keys (items (to_commented_map m)) =
    first_occurrences (map call_name calls) /\
  (forall overwrite,
      let m' := add_defaults (new_manager overwrite) calls in
      map name (defaults m') = first_occurrences (map call_name calls) /\
      keys (items (to_commented_map m')) =
        first_occurrences (map call_name calls)).
Proof.
  intros m.
  assert (Hwf : forall b, wf_manager (add_defaults (new_manager b) calls))
    by (intros b; apply wf_add_defaults, wf_new_manager).
  assert (Hord : forall b,
             let m' := add_defaults (new_manager b) calls in
             map name (defaults m') = first_occurrences (map call_name calls) /\
             keys (items (to_commented_map m')) =
               first_occurrences (map call_name calls)).
  { intros b m'. split.
    - unfold m'. rewrite names_of_defaults by apply Hwf.
      apply keys_add_defaults_new.
    - unfold m'. rewrite keys_to_commented_map by apply Hwf.
      apply keys_add_defaults_new. }
  split; [| split; [apply (Hord true) | split; [apply (Hord true) | exact Hord]]].
  intros pre c post E Hlast.
  assert (L : lookup (call_name c) (_defaults m) = Some (entry_of c)).
  { unfold m. rewrite lookup_add_defaults_overwrite by reflexivity.
    rewrite (last_call_split _ _ _ _ E Hlast). reflexivity. }
  destruct (lookup_to_commented_map _ (call_name c) (Hwf true)) as [Hi Hc].
  fold m in Hi, Hc. rewrite L in Hi, Hc.
  repeat split; assumption.
Qed.

Lemma add_default_first_call_wins_sample :
  lookup (lit "a") (_defaults (add_defaults (new_manager false) sample_calls)) =
    Some (mkRoleDefault (lit "a") (VStr (lit "x")) (VStr (lit "first"))) /\
  add_default (add_defaults (new_manager false) sample_calls)
              (lit "a") (VInt 9) Omitted =
    add_defaults (new_manager false) sample_calls.
Proof.
  pose proof (add_default_first_call_wins sample_calls) as H.
  cbv zeta in H. destruct H as (_ & Hfirst & _ & Hnoop). split.
  - refine (proj1 (Hfirst [] _ _ eq_refl _)). intros c' [].
  - apply Hnoop. simpl. left; reflexivity.
Defined.

Lemma add_default_overwrite_last_call_wins_sample :
  lookup (lit "a") (_defaults (add_defaults (new_manager true) sample_calls)) =
    Some (mkRoleDefault (lit "a") (VInt 3) (VStr (lit "later"))) /\
  map name (defaults (add_defaults (new_manager true) sample_calls)) =
    [lit "a"; lit "b"].
Proof.
  pose proof (add_default_overwrite_last_call_wins sample_calls) as H.
  cbv zeta in H. destruct H as (Hlast & Horder & _). split.
  - refine (proj1 (Hlast [_; _] _ [] eq_refl _)). intros c' [].
  - exact Horder.
Defined.

(** * The projection *)

(** C5. In the document [to_commented_map] builds from a manager, the
    keys are the names of the entries in their order; an entry whose
    value is a string with a newline is stored as a
    [LiteralScalarString] of the same characters; a string without
    newline, and any value that is not a string, is stored as it is; and
    the description of each entry is the comment set before its key. *)
Theorem to_commented_map_marks_multiline (m : RoleDefaultsManager) :
  wf_manager m ->
  keys (items (to_commented_map m)) = map name (defaults m) /\
  comment_before (to_commented_map m) =
    map (fun rd => (name rd, description rd)) (defaults m) /\
  (forall rd, In rd (defaults m) ->
      lookup (name rd) (comment_before (to_commented_map m)) =
        Some (description rd) /\
      (forall s, value rd = VStr s -> In newline s ->
         lookup (name rd) (items (to_commented_map m)) =
           Some (LiteralScalarString s)) /\
      (forall s, value rd = VStr s -> ~ In newline s ->
         lookup (name rd) (items (to_commented_map m)) =
           Some (Plain (VStr s))) /\
      ((forall s, value rd <> VStr s) ->
         lookup (name rd) (items (to_commented_map m)) =
           Some (Plain (value rd)))).
Proof.
  intros Hwf. split; [| split].
  - rewrite keys_to_commented_map, names_of_defaults by exact Hwf.
    reflexivity.
  - unfold to_commented_map. rewrite comment_before_fold. reflexivity.
  - intros rd Hin.
    pose proof (lookup_of_entry _ _ Hwf Hin) as L.
    destruct (lookup_to_commented_map _ (name rd) Hwf) as [Hi Hc].
    rewrite L in Hi, Hc. simpl in Hi, Hc.
    split; [exact Hc|]. split; [| split].
    + intros s E Hnl. rewrite Hi, E. simpl.
      rewrite (proj2 (has_newline_In s) Hnl). reflexivity.
    + intros s E Hnl. rewrite Hi, E. simpl.
      destruct (has_newline s) eqn:F; [|reflexivity].
      apply has_newline_In in F. contradiction.
    + intros Hns. rewrite Hi.
      destruct (value rd) as [| | |s| |]; try reflexivity.
      exfalso. apply (Hns s). reflexivity.
Qed.

Lemma to_commented_map_marks_multiline_sample :
  lookup (lit "motd") (items (to_commented_map sample_manager)) =
    Some (LiteralScalarString (lit "line1" ++ [newline] ++ lit "line2")) /\
  lookup (lit "port") (items (to_commented_map sample_manager)) =
    Some (Plain (VInt 22)) /\
  lookup (lit "motd") (comment_before (to_commented_map sample_manager)) =
    Some (VStr (lit "Banner")).
Proof.
  assert (Hwf : wf_manager sample_manager)
    by apply wf_add_defaults, wf_new_manager.
  destruct (to_commented_map_marks_multiline _ Hwf) as (_ & _ & H).
  pose (motd := mkRoleDefault (lit "motd")
                  (VStr (lit "line1" ++ [newline] ++ lit "line2"))
                  (VStr (lit "Banner"))).
  pose (port := mkRoleDefault (lit "port") (VInt 22) (VStr (lit "Port"))).
  destruct (H motd) as (Hc & Hlit & _ & _); [left; reflexivity|].
  destruct (H port) as (_ & _ & _ & Hplain); [right; left; reflexivity|].
  split; [| split].
  - apply (Hlit _ eq_refl). vm_compute. tauto.
  - apply Hplain. intros s; discriminate.
  - exact Hc.
Defined.

(** * Normalization of string values *)

(** C6. When a call of [add_default] stores its entry (the manager
    overwrites, or the name is new) and the value is a string, the
    stored value is that string without its leading and trailing
    whitespace: the string is whitespace, then the stored string, then
    whitespace, and the stored string neither starts nor ends with
    whitespace. Stripping is idempotent, and adding the stripped string
    again under the same name gives the same manager. A value that is
    not a string is stored as it is. *)
Theorem add_default_strips_strings (m : RoleDefaultsManager) (n : str)
    (d : arg) :
  (forall s,
      _overwrite m = true \/ mem n (_defaults m) = false ->
      (exists rd,
          lookup n (_defaults (add_default m n (VStr s) d)) = Some rd /\
          value rd = VStr (strip s)) /\
      (exists pre post,
          s = pre ++ strip s ++ post /\
          all_space pre = true /\ all_space post = true) /\
      trimmed (strip s)) /\
  (forall s,
      strip (strip s) = strip s /\
      add_default (add_default m n (VStr s) d) n (VStr (strip s)) d =
        add_default m n (VStr s) d) /\
  (forall v,
      _overwrite m = true \/ mem n (_defaults m) = false ->
      (forall s, v <> VStr s) ->
      exists rd,
        lookup n (_defaults (add_default m n v d)) = Some rd /\
        value rd = v).
Proof.
  split; [| split].
  - intros s Hst. split; [| split].
    + eexists. split; [apply lookup_add_default_stored; exact Hst|].
      reflexivity.
    + apply strip_split.
    + apply strip_trimmed.
  - intros s. split; [apply strip_idempotent|].
    destruct (_overwrite m) eqn:Ho.
    + unfold add_default. rewrite Ho. simpl.
      rewrite strip_idempotent, setitem_setitem. reflexivity.
    + apply add_default_present_keep.
      * rewrite overwrite_add_default; exact Ho.
      * apply mem_true. rewrite keys_add_default.
        destruct (mem n (_defaults m)) eqn:Hm.
        -- apply mem_true; exact Hm.
        -- apply in_or_app; right; left; reflexivity.
  - intros v Hst Hns. eexists.
    split; [apply lookup_add_default_stored; exact Hst|].
    destruct v; try reflexivity. exfalso. apply (Hns s). reflexivity.
Qed.

Lemma add_default_strips_strings_sample :
  (exists rd,
      lookup (lit "k")
        (_defaults (add_default (new_manager true) (lit "k")
                                (VStr (lit "  x  ")) Omitted)) = Some rd /\
      value rd = VStr (lit "x")) /\
  (exists rd,
      lookup (lit "k")
        (_defaults (add_default (new_manager true) (lit "k")
                                (VList [VStr (lit " y ")]) Omitted)) = Some rd /\
      value rd = VList [VStr (lit " y ")]).
Proof.
  destruct (add_default_strips_strings (new_manager true) (lit "k") Omitted)
    as (Hstr & _ & Hother).
  split.
  - refine (proj1 (Hstr (lit "  x  ") _)). left; reflexivity.
  - apply Hother; [left; reflexivity | intros s; discriminate].
Defined.

(** C9. The value is stripped when it is added, before the projection
    looks for a newline. So a string whose newlines all stand in its
    leading or trailing whitespace is stored without newline and is put
    in the document as a plain string. In general the document holds a
    [LiteralScalarString] exactly when the stripped string still has a
    newline, and such a newline has characters on both sides. *)
Theorem edge_newlines_do_not_mark (m : RoleDefaultsManager) (n : str)
    (d : arg) :
  wf_manager m ->
  _overwrite m = true \/ mem n (_defaults m) = false ->
  (forall pre mid post,
      all_space pre = true -> all_space post = true ->
      has_newline mid = false ->
      let m' := add_default m n (VStr (pre ++ mid ++ post)) d in
      (exists rd,
          lookup n (_defaults m') = Some rd /\ value rd = VStr (strip mid)) /\
      has_newline (strip mid) = false /\
      lookup n (items (to_commented_map m')) = Some (Plain (VStr (strip mid)))) /\
  (forall s,
      let m' := add_default m n (VStr s) d in
      (lookup n (items (to_commented_map m')) =
         Some (LiteralScalarString (strip s)) <->
       has_newline (strip s) = true) /\
      (has_newline (strip s) = false ->
       lookup n (items (to_commented_map m')) = Some (Plain (VStr (strip s)))) /\
      (has_newline (strip s) = true ->
       exists a b, strip s = a ++ newline :: b /\ a <> [] /\ b <> [])).
Proof.
  intros Hwf Hst.
  assert (Hdoc : forall s,
             lookup n (items (to_commented_map (add_default m n (VStr s) d))) =
             Some (literal_if_multiline (VStr (strip s)))).
  { intros s.
    destruct (lookup_to_commented_map _ n (wf_add_default m n (VStr s) d Hwf))
      as [Hi _].
    rewrite Hi, lookup_add_default_stored by exact Hst. reflexivity. }
  split.
  - intros pre mid post Hpre Hpost Hmid m'.
    assert (Hno : has_newline (strip mid) = false).
    { destruct (has_newline (strip mid)) eqn:F; [|reflexivity].
      apply has_newline_strip in F. congruence. }
    split; [| split].
    + eexists. split; [apply lookup_add_default_stored; exact Hst|].
      simpl. rewrite strip_frame by assumption. reflexivity.
    + exact Hno.
    + unfold m'. rewrite Hdoc, strip_frame by assumption.
      simpl. rewrite Hno. reflexivity.
  - intros s m'. unfold m'. rewrite Hdoc. simpl. split; [| split].
    + destruct (has_newline (strip s)); split; congruence.
    + intros F; rewrite F; reflexivity.
    + apply has_newline_strip_interior.
Qed.

Lemma edge_newlines_do_not_mark_sample :
  lookup (lit "k")
    (items (to_commented_map
              (add_default (new_manager false) (lit "k")
                           (VStr (lit "x" ++ [newline])) Omitted))) =
  Some (Plain (VStr (lit "x"))).
Proof.
  destruct (edge_newlines_do_not_mark (new_manager false) (lit "k") Omitted
              (wf_new_manager false) (or_intror eq_refl)) as [H _].
  exact (proj2 (proj2 (H [] (lit "x") [newline] eq_refl eq_refl eq_refl))).
Defined.

(** * The extraction driver *)

Import DriverFacts.

(** C4. In the loops of [generate_commented_defaults], an option whose
    [default] is null leaves the manager as it is, and the document is
    the one obtained without that option; an entry point without
    [options] key leaves the manager as it is, and the document is the
    one obtained without that entry point. In both cases the loop body
    returns: nothing is raised. *)
Theorem null_default_and_missing_options_are_skipped :
  (forall m n spec,
      get spec (lit "default") = VNone ->
      option_body m (n, VDict spec) = Ok m) /\
  (forall data ow ep entry before n spec after,
      lookup ep data = Some (VDict entry) ->
      get entry (lit "options") = VDict (before ++ (n, VDict spec) :: after) ->
      get spec (lit "default") = VNone ->
      generate_commented_defaults data ow =
      generate_commented_defaults
        (setitem ep
           (VDict (setitem (lit "options") (VDict (before ++ after)) entry))
           data) ow) /\
  (forall data m ep entry,
      lookup ep data = Some (VDict entry) ->
      lookup (lit "options") entry = None ->
      entry_point_body data m ep = Ok m) /\
  (forall pre ep entry post ow,
      wf_dict (pre ++ (ep, VDict entry) :: post) ->
      lookup (lit "options") entry = None ->
      generate_commented_defaults (pre ++ (ep, VDict entry) :: post) ow =
      generate_commented_defaults (pre ++ post) ow).
Proof.
  split; [| split; [| split]].
  - apply option_body_null.
  - intros data ow ep entry before n spec after Hep Hopts Hnull.
    unfold generate_commented_defaults. f_equal.
    apply collect_replace.
    + unfold mem. rewrite Hep. reflexivity.
    + intros m.
      rewrite (entry_point_body_options _ _ _ _ _ Hep Hopts).
      rewrite for_each_skip
        by (intros s; apply option_body_null; exact Hnull).
      symmetry. eapply entry_point_body_options.
      * apply lookup_setitem_eq.
      * unfold get. rewrite lookup_setitem_eq. reflexivity.
  - intros data m ep entry Hep Hno.
    apply (entry_point_body_falsy _ _ _ _ Hep).
    unfold get. rewrite Hno. reflexivity.
  - intros pre ep entry post ow Hwf Hno.
    unfold generate_commented_defaults. f_equal.
    apply collect_remove; [exact Hwf|].
    unfold get. rewrite Hno. reflexivity.
Qed.

Lemma null_default_and_missing_options_are_skipped_sample :
  generate_commented_defaults sample_spec false =
    Ok {| items := [(lit "timeout", Plain (VInt 30))];
          comment_before :=
            [(lit "timeout", VStr (lit "Timeout in seconds"))] |} /\
  generate_commented_defaults sample_spec false =
    generate_commented_defaults
      [ (lit "main",
         VDict [ (lit "options",
                  VDict [ (lit "timeout",
                           VDict [ (lit "default", VInt 30);
                                   (lit "description",
                                    VStr (lit "Timeout in seconds")) ]) ]) ]);
        (lit "extra",
         VDict [ (lit "options",
                  VDict [ (lit "timeout",
                           VDict [ (lit "default", VInt 99);
                                   (lit "description",
                                    VStr (lit "overridden")) ]) ]) ]) ]
      false.
Proof.
  destruct null_default_and_missing_options_are_skipped
    as (_ & Hoption & _ & Hentry).
  split; [reflexivity|].
  etransitivity.
  - refine (Hoption sample_spec false (lit "main") _ [_] (lit "retries") _ []
              eq_refl eq_refl eq_refl).
  - refine (Hentry [_] (lit "meta")
              [(lit "short_description", VStr (lit "A role"))] [_] false _
              eq_refl).
    repeat constructor; simpl; intuition discriminate.
Defined.

(** C10. An option is collected whenever its [default] is not [None]:
    also when it is [False], [0], the empty string, the empty list or
    the empty dict, all of which are false as truth values. The test on
    [options] is a truth test: an entry point whose [options] is the
    empty dict is skipped, and the document is the one obtained when
    the entry point has no [options] key. *)
Theorem falsy_defaults_are_collected_empty_options_skipped :
  (forall m n spec,
      get spec (lit "default") <> VNone ->
      option_body m (n, VDict spec) =
      Ok (add_default m n (get spec (lit "default"))
                      (Given (get spec (lit "description"))))) /\
  (forall v ow,
      In v [VBool false; VInt 0; VStr []; VList []; VDict []] ->
      truthy v = false /\
      collect (one_default v) ow =
        Ok {| _defaults := [(lit "x", mkRoleDefault (lit "x") v VNone)];
              _overwrite := ow |} /\
      generate_commented_defaults (one_default v) ow =
        Ok {| items := [(lit "x", Plain v)];
              comment_before := [(lit "x", VNone)] |}) /\
  (forall data m ep entry,
      lookup ep data = Some (VDict entry) ->
      lookup (lit "options") entry = Some (VDict []) ->
      entry_point_body data m ep = Ok m) /\
  (forall data ow ep entry entry',
      lookup ep data = Some (VDict entry) ->
      lookup (lit "options") entry = Some (VDict []) ->
      lookup (lit "options") entry' = None ->
      generate_commented_defaults data ow =
      generate_commented_defaults (setitem ep (VDict entry') data) ow).
Proof.
  split; [| split; [| split]].
  - apply option_body_default.
  - intros v ow Hin. simpl in Hin.
    destruct ow;
      (destruct Hin as [<-|[<-|[<-|[<-|[<-|[]]]]]];
       repeat split; reflexivity).
  - intros data m ep entry Hep Hopt.
    apply (entry_point_body_falsy _ _ _ _ Hep).
    unfold get. rewrite Hopt. reflexivity.
  - intros data ow ep entry entry' Hep Hopt Hno.
    unfold generate_commented_defaults. f_equal.
    apply collect_replace.
    + unfold mem. rewrite Hep. reflexivity.
    + intros m. rewrite (entry_point_body_falsy _ _ _ _ Hep)
        by (unfold get; rewrite Hopt; reflexivity).
      symmetry. eapply entry_point_body_falsy.
      * apply lookup_setitem_eq.
      * unfold get. rewrite Hno. reflexivity.
Qed.

Lemma falsy_defaults_are_collected_empty_options_skipped_sample :
  generate_commented_defaults (one_default (VBool false)) false =
    Ok {| items := [(lit "x", Plain (VBool false))];
          comment_before := [(lit "x", VNone)] |} /\
  entry_point_body [(lit "main", VDict [(lit "options", VDict [])])]
                   (new_manager false) (lit "main") =
    Ok (new_manager false).
Proof.
  destruct falsy_defaults_are_collected_empty_options_skipped
    as (_ & Hfalsy & Hempty & _).
  split.
  - refine (proj2 (proj2 (Hfalsy (VBool false) false _))).
    left; reflexivity.
  - apply (Hempty _ _ _ [(lit "options", VDict [])]); reflexivity.
Defined.

(** C3. The driver passes [spec.get("description")] to [add_default],
    which is [None] when the option has no [description] key: the
    default of the parameter is not used. For the option [x] with
    default [1] and no description, the entry and the comment of the
    document hold [None]; the same call with the argument left out
    stores the placeholder. *)
Theorem missing_description_is_stored_as_None :
  collect (one_default (VInt 1)) false =
    Ok {| _defaults := [(lit "x", mkRoleDefault (lit "x") (VInt 1) VNone)];
          _overwrite := false |} /\
  generate_commented_defaults (one_default (VInt 1)) false =
    Ok {| items := [(lit "x", Plain (VInt 1))];
          comment_before := [(lit "x", VNone)] |} /\
  _defaults (add_default (new_manager false) (lit "x") (VInt 1) Omitted) =
    [(lit "x", mkRoleDefault (lit "x") (VInt 1)
                 (VStr (lit "No description provided.")))] /\
  (forall m n spec,
      lookup (lit "description") spec = None ->
      get spec (lit "default") <> VNone ->
      option_body m (n, VDict spec) =
      Ok (add_default m n (get spec (lit "default")) (Given VNone))).
Proof.
  repeat split.
  intros m n spec Hno Hdef.
  rewrite option_body_default by exact Hdef.
  unfold get at 2. rewrite Hno. reflexivity.
Qed.

(** * Writing the file *)

(** C8. The path [write_defaults] works on: when the name of the
    requested path is [README.md] it is [<role_path>/defaults/main.yml];
    otherwise, when the requested path is absolute, it is that path;
    otherwise it is the requested path under [<role_path>/defaults]. The
    tests are made in this order. The parent of this path is the
    directory that is created and the path is the file that is
    written. *)
Theorem write_defaults_output_path (output_file_path role_path : Path) :
  (path_name output_file_path = lit "README.md" ->
   output_path output_file_path role_path =
     {| is_absolute := is_absolute role_path;
        components :=
          components role_path ++ [lit "defaults"; lit "main.yml"] |}) /\
  (path_name output_file_path <> lit "README.md" ->
   is_absolute output_file_path = true ->
   output_path output_file_path role_path = output_file_path) /\
  (path_name output_file_path <> lit "README.md" ->
   is_absolute output_file_path = false ->
   output_path output_file_path role_path =
     {| is_absolute := is_absolute role_path;
        components :=
          components role_path ++
          lit "defaults" :: components output_file_path |}) /\
  (forall mkdir write_file role_defaults,
      let output := output_path output_file_path role_path in
      let done :=
        write_defaults mkdir write_file output_file_path role_path
                       role_defaults in
      mkdir (parent output) = None -> write_file output = None ->
      made_dir done = Some (parent output) /\
      ending done = Returns /\
      exists lines, written done = Some (output, lines, role_defaults)).
Proof.
  split; [| split; [| split]].
  - intros E. unfold output_path. rewrite E, eqb_refl.
    unfold joinpath; simpl. rewrite <- app_assoc. reflexivity.
  - intros Hne Habs. apply eqb_neq in Hne. unfold output_path.
    rewrite Hne, Habs. reflexivity.
  - intros Hne Hrel. apply eqb_neq in Hne. unfold output_path.
    rewrite Hne, Hrel.
    unfold joinpath; simpl. rewrite Hrel, <- app_assoc. reflexivity.
  - intros mkdir write_file role_defaults output done Hmk Hwr.
    unfold done, write_defaults. fold output. rewrite Hmk, Hwr. simpl.
    repeat split. eexists; reflexivity.
Qed.

Lemma write_defaults_output_path_sample :
  output_path (rel (lit "README.md"))
              {| is_absolute := true; components := [lit "roles"; lit "web"] |} =
    {| is_absolute := true;
       components := [lit "roles"; lit "web"; lit "defaults"; lit "main.yml"] |} /\
  output_path {| is_absolute := true; components := [lit "tmp"; lit "d.yml"] |}
              {| is_absolute := true; components := [lit "roles"; lit "web"] |} =
    {| is_absolute := true; components := [lit "tmp"; lit "d.yml"] |} /\
  output_path {| is_absolute := false; components := [lit "sub"; lit "d.yml"] |}
              {| is_absolute := true; components := [lit "roles"; lit "web"] |} =
    {| is_absolute := true;
       components := [lit "roles"; lit "web"; lit "defaults";
                      lit "sub"; lit "d.yml"] |}.
Proof.
  split; [| split].
  - refine (proj1 (write_defaults_output_path _ _) _). reflexivity.
  - refine (proj1 (proj2 (write_defaults_output_path _ _)) _ _);
      [vm_compute; discriminate | reflexivity].
  - refine (proj1 (proj2 (proj2 (write_defaults_output_path _ _))) _ _);
      [vm_compute; discriminate | reflexivity].
Defined.

(** C7. When the directory cannot be created, the message given to
    [typer.echo] ends with the characters [{exc.strerror}] as they are
    written in the source: the second half of the message is not an
    f-string, so the text of the OS error is not in it, and the message
    is the same for every error. The call ends with [typer.Exit(1)].
    When the file cannot be written the message does hold the text of
    the OS error, and the call ends with [typer.Exit(1)] too. *)
Theorem mkdir_failure_message_lacks_strerror :
  let role := {| is_absolute := true; components := [lit "roles"; lit "web"] |} in
  let denied := {| strerror := lit "Permission denied" |} in
  let done :=
    write_defaults (fun _ => Some denied) (fun _ => None)
                   (rel (lit "README.md")) role empty_map in
  echoed done =
    [lit "Unable to create necessary directories for '/roles/web/defaults/main.yml'. The following error occured: '{exc.strerror}'."] /\
  existsb (contains (lit "Permission denied")) (echoed done) = false /\
  ending done = Exit 1 /\
  (forall exc exc' write_file output_file_path role_path role_defaults,
      write_defaults (fun _ => Some exc) write_file
                     output_file_path role_path role_defaults =
      write_defaults (fun _ => Some exc') write_file
                     output_file_path role_path role_defaults) /\
  (forall exc output_file_path role_path role_defaults,
      let failed :=
        write_defaults (fun _ => None) (fun _ => Some exc)
                       output_file_path role_path role_defaults in
      existsb (contains (strerror exc)) (echoed failed) = true /\
      ending failed = Exit 1).
Proof.
  cbv zeta. do 3 (split; [reflexivity|]). split.
  - reflexivity.
  - intros exc output_file_path role_path role_defaults.
    split; [|reflexivity].
    unfold write_defaults. cbn [echoed existsb].
    rewrite 2 app_assoc, contains_app. reflexivity.
Qed.

(** * Further properties *)

Module MoreFacts.
Import StrFacts DictFacts ManagerFacts DriverFacts.

Lemma add_defaults_app m calls calls' :
  add_defaults m (calls ++ calls') = add_defaults (add_defaults m calls) calls'.
Proof. apply fold_left_app. Qed.

(** Two dicts with distinct keys, the same keys in the same order and
    the same value under each key are equal. *)
Lemma dict_ext {V : Type} (d1 d2 : dict V) :
  wf_dict d1 -> wf_dict d2 -> keys d1 = keys d2 ->
  (forall k, lookup k d1 = lookup k d2) -> d1 = d2.
Proof.
  unfold wf_dict. revert d2.
  induction d1 as [|[k1 v1] d1 IH]; intros [|[k2 v2] d2] H1 H2 Hk Hl;
    try discriminate; [reflexivity|].
  simpl in Hk. injection Hk as -> Hk.
  inversion H1 as [|? ? Hn1 H1']; inversion H2 as [|? ? Hn2 H2']; subst.
  pose proof (Hl k2) as E. simpl in E. rewrite eqb_refl in E.
  injection E as ->. f_equal.
  apply IH; try assumption.
  intros k. specialize (Hl k). simpl in Hl.
  destruct (eqb_spec k k2) as [Ek|Hne]; [subst k; clear Hl|exact Hl].
  rewrite (proj2 (lookup_None _ k2 d1) Hn1).
  rewrite Hk in Hn1. rewrite (proj2 (lookup_None _ k2 d2) Hn1). reflexivity.
Qed.

Lemma for_each_option_body options m :
  for_each option_body options m =
  if forallb (fun kv => option_ok (snd kv)) options
  then Ok (add_defaults m (flat_map option_call options))
  else Raise AttributeError.
Proof.
  revert m. induction options as [|[n spec] options IH]; intros m;
    [reflexivity|].
  destruct spec as [| | | | |spec]; try reflexivity.
  cbn [for_each option_body forallb option_ok snd flat_map andb].
  unfold option_call; cbn [fst snd].
  destruct (is_None (get spec (lit "default"))); cbn [negb bind app]; apply IH.
Qed.

Lemma entry_point_body_cases data m ep entry :
  lookup ep data = Some entry ->
  entry_point_body data m ep =
  if entry_ok entry then Ok (add_defaults m (entry_calls entry))
  else Raise AttributeError.
Proof.
  intros H. unfold entry_point_body, get_or. rewrite H.
  destruct entry as [| | | | |entry]; try reflexivity.
  unfold entry_ok, entry_calls, options_ok.
  destruct (get entry (lit "options")) as [|[]|n|[|]|[|]|[|]];
    try reflexivity.
  - cbn [truthy]. destruct (n =? 0)%Z; reflexivity.
  - cbn [truthy negb orb]. apply for_each_option_body.
Qed.

Lemma for_each_entries data l m :
  (forall k e, In (k, e) l -> lookup k data = Some e) ->
  for_each (entry_point_body data) (keys l) m =
  if forallb (fun kv => entry_ok (snd kv)) l
  then Ok (add_defaults m (flat_map (fun kv => entry_calls (snd kv)) l))
  else Raise AttributeError.
Proof.
  revert m. induction l as [|[k e] l IH]; intros m H; [reflexivity|].
  cbn [keys map fst for_each forallb snd flat_map].
  rewrite (entry_point_body_cases data m k e) by (apply H; left; reflexivity).
  destruct (entry_ok e); cbn [bind andb]; [|reflexivity].
  fold (keys l). rewrite IH by (intros; apply H; right; assumption).
  destruct (forallb _ l); [|reflexivity].
  rewrite add_defaults_app. reflexivity.
Qed.

Lemma collect_cases data ow :
  wf_dict data ->
  collect data ow =
  if well_shaped data then Ok (add_defaults (new_manager ow) (spec_calls data))
  else Raise AttributeError.
Proof.
  intros Hwf. unfold collect. apply for_each_entries.
  intros k e Hin. apply In_lookup; assumption.
Qed.

Lemma for_each_preserves {A S : Type} (P : S -> Prop)
    (body : S -> A -> result S) xs :
  (forall s x s', P s -> body s x = Ok s' -> P s') ->
  forall s s', P s -> for_each body xs s = Ok s' -> P s'.
Proof.
  intros Hbody. induction xs as [|x xs IH]; intros s s' Hs E; simpl in E.
  - injection E as <-. exact Hs.
  - destruct (body s x) as [s1|] eqn:B; [|discriminate].
    simpl in E. apply (IH s1); [eapply Hbody; eassumption | exact E].
Qed.

Lemma no_None_add_default m n v d :
  v <> VNone ->
  wf_manager m /\ no_None_value m ->
  wf_manager (add_default m n v d) /\ no_None_value (add_default m n v d).
Proof.
  intros Hv [Hwf Hn]. split; [apply wf_add_default; exact Hwf|].
  assert (Hnv : normalized v <> VNone) by (destruct v; simpl; congruence).
  unfold no_None_value, add_default in *.
  destruct (_overwrite m); simpl.
  - clear Hwf. induction (_defaults m) as [|[k rd] l IH]; simpl.
    + repeat constructor. exact Hnv.
    + inversion Hn; subst.
      destruct (Str.eqb n k); constructor; simpl; auto.
  - unfold setdefault. destruct (mem n (_defaults m)); [exact Hn|].
    apply Forall_app; split; [exact Hn | repeat constructor; exact Hnv].
Qed.

Lemma collect_invariant data ow m :
  collect data ow = Ok m -> wf_manager m /\ no_None_value m.
Proof.
  unfold collect.
  apply (for_each_preserves (fun m => wf_manager m /\ no_None_value m)).
  - intros s ep s' Hs E. unfold entry_point_body in E.
    destruct (get_or data ep (VDict [])) as [| | | | |entry]; try discriminate.
    destruct (negb (truthy (get entry (lit "options"))));
      [injection E as <-; exact Hs|].
    destruct (get entry (lit "options")) as [| | | | |options];
      try discriminate.
    refine (for_each_preserves
              (fun m => wf_manager m /\ no_None_value m)
              option_body options _ s s' Hs E).
    clear. intros s [n spec] s' Hs E. simpl in E.
    destruct spec as [| | | | |spec]; try discriminate.
    destruct (get spec (lit "default")) eqn:D; simpl in E;
      injection E as <-; try exact Hs;
      apply no_None_add_default; try exact Hs; discriminate.
  - split; [apply wf_new_manager | constructor].
Qed.

Lemma In_spec_calls data c :
  In c (spec_calls data) <->
  exists ep entry options spec,
    In (ep, VDict entry) data /\
    get entry (lit "options") = VDict options /\
    In (call_name c, VDict spec) options /\
    get spec (lit "default") <> VNone /\
    c = mkCall (call_name c) (get spec (lit "default"))
               (Given (get spec (lit "description"))).
Proof.
  unfold spec_calls. rewrite in_flat_map. split.
  - intros ([ep e] & Hin & Hc). simpl in Hc.
    destruct e as [| | | | |entry]; try contradiction. simpl in Hc.
    destruct (get entry (lit "options")) as [| | | | |options] eqn:O;
      try contradiction.
    apply in_flat_map in Hc. destruct Hc as ([n sp] & Hopt & Hc).
    unfold option_call in Hc. simpl in Hc.
    destruct sp as [| | | | |spec]; try contradiction.
    destruct (get spec (lit "default")) eqn:D; simpl in Hc;
      try contradiction; destruct Hc as [<-|[]]; simpl;
      exists ep, entry, options, spec; rewrite D;
      (repeat split; [assumption | assumption | assumption | discriminate]).
  - intros (ep & entry & options & spec & Hin & O & Hopt & D & E).
    exists (ep, VDict entry). split; [exact Hin|]. simpl. rewrite O.
    apply in_flat_map. exists (call_name c, VDict spec).
    split; [exact Hopt|]. unfold option_call. simpl.
    destruct (get spec (lit "default")); try contradiction;
      simpl; left; symmetry; exact E.
Qed.

Lemma Forall_setitem {V : Type} (P : str * V -> Prop) k v (d : dict V) :
  (forall k', P (k', v)) -> Forall P d -> Forall P (setitem k v d).
Proof.
  intros Hv H. induction H as [|[k0 v0] l H0 Hl IH]; simpl.
  - repeat constructor. apply Hv.
  - destruct (Str.eqb k k0); constructor;
      [apply Hv | exact Hl | exact H0 | exact IH].
Qed.

Lemma Forall_setdefault {V : Type} (P : str * V -> Prop) k v (d : dict V) :
  P (k, v) -> Forall P d -> Forall P (setdefault k v d).
Proof.
  intros Hv H. unfold setdefault. destruct (mem k d); [exact H|].
  apply Forall_app. split; [exact H | repeat constructor; exact Hv].
Qed.

(** Whatever holds of the entries of a manager and of the entry a call
    builds holds of the entries after the call. *)
Lemma add_default_entries (P : RoleDefault -> Prop) m n v d :
  P (mkRoleDefault n (normalized v) (arg_or d (VStr no_description))) ->
  Forall (fun kv => P (snd kv)) (_defaults m) ->
  Forall (fun kv => P (snd kv)) (_defaults (add_default m n v d)).
Proof.
  intros Hv H. unfold add_default. destruct (_overwrite m); simpl.
  - apply Forall_setitem; [intros k'; exact Hv | exact H].
  - apply Forall_setdefault; [exact Hv | exact H].
Qed.

Lemma add_defaults_entries (P : RoleDefault -> Prop) calls m :
  (forall c, In c calls -> P (entry_of c)) ->
  Forall (fun kv => P (snd kv)) (_defaults m) ->
  Forall (fun kv => P (snd kv)) (_defaults (add_defaults m calls)).
Proof.
  revert m. induction calls as [|c cs IH]; intros m Hc H; [exact H|].
  rewrite add_defaults_cons. apply IH.
  - intros c' Hin. apply Hc. right; exact Hin.
  - apply add_default_entries; [|exact H].
    apply (Hc c). left; reflexivity.
Qed.

Lemma filter_none {A : Type} (f : A -> bool) (l : list A) :
  (forall x, In x l -> f x = false) -> filter f l = [].
Proof.
  induction l as [|a l IH]; intros H; simpl; [reflexivity|].
  rewrite (H a) by (left; reflexivity). apply IH.
  intros x Hx. apply H. right; exact Hx.
Qed.

Lemma first_call_absent k calls :
  ~ In k (map call_name calls) -> first_call k calls = None.
Proof.
  intros H. apply find_absent. intros c Hc. apply eqb_neq.
  intros E. apply H. rewrite <- E. apply in_map; exact Hc.
Qed.

Lemma last_call_absent k calls :
  ~ In k (map call_name calls) -> last_call k calls = None.
Proof.
  intros H. apply find_absent. intros c Hc. apply eqb_neq.
  intros E. apply H. rewrite <- E. apply in_map, in_rev; exact Hc.
Qed.

Lemma ill_shaped_entry data :
  well_shaped data = false <->
  exists ep e, In (ep, e) data /\ entry_ok e = false.
Proof.
  unfold well_shaped. induction data as [|[k e] data IH]; simpl.
  - split; [discriminate | intros (? & ? & [] & _)].
  - destruct (entry_ok e) eqn:E; simpl.
    + rewrite IH. split.
      * intros (ep & e' & Hin & F). exists ep, e'. auto.
      * intros (ep & e' & [Heq|Hin] & F).
        -- injection Heq as <- <-. congruence.
        -- exists ep, e'. auto.
    + split; [|reflexivity]. intros _. exists k, e. auto.
Qed.

Lemma strip_blank s : strip s = [] <-> all_space s = true.
Proof.
  split.
  - intros E. destruct (strip_split s) as (pre & post & Hs & Hpre & Hpost).
    rewrite E in Hs. simpl in Hs. rewrite Hs, all_space_app, Hpre, Hpost.
    reflexivity.
  - intros H. unfold strip. rewrite (lstrip_all_space s H). reflexivity.
Qed.

Lemma for_each_setitem {S V : Type} (body : S -> str * V -> result S)
    n v v' (d : dict V) s :
  lookup n d = Some v ->
  (forall s', body s' (n, v') = body s' (n, v)) ->
  for_each body (setitem n v' d) s = for_each body d s.
Proof.
  revert s. induction d as [|[k0 v0] d IH]; intros s Hl Hb; simpl in *;
    [discriminate|].
  destruct (eqb_spec n k0) as [E|Hne].
  - subst k0. injection Hl as ->. simpl. rewrite Hb. reflexivity.
  - simpl. destruct (body s (k0, v0)); simpl; [|reflexivity].
    apply IH; assumption.
Qed.

End MoreFacts.

Import MoreFacts.

(** ** The driver as a sequence of calls *)





(** X3. The keys of a generated document are the names of the options
    that have a default other than [None], each once, in the order in
    which the loops first meet them; the overwrite policy plays no
    part. One comment is set per key, in the same order. *)
Theorem generate_document_keys (data : dict Any) (ow : bool)
    (doc : CommentedMap) :
  wf_dict data ->
  generate_commented_defaults data ow = Ok doc ->
  keys (items doc) = first_occurrences (map call_name (spec_calls data)) /\
  keys (comment_before doc) = keys (items doc) /\
  NoDup (keys (items doc)) /\
  (forall k,
      In k (keys (items doc)) <->
      exists ep entry options spec,
        In (ep, VDict entry) data /\
        get entry (lit "options") = VDict options /\
        In (k, VDict spec) options /\
        get spec (lit "default") <> VNone).
Proof.
  intros Hwf E. unfold generate_commented_defaults in E.
  rewrite (collect_cases data ow Hwf) in E.
  destruct (well_shaped data); [|discriminate].
  simpl in E. injection E as <-.
  set (m := add_defaults (new_manager ow) (spec_calls data)).
  assert (Hm : wf_manager m) by apply wf_add_defaults, wf_new_manager.
  assert (Hk : keys (items (to_commented_map m)) =
               first_occurrences (map call_name (spec_calls data))).
  { rewrite keys_to_commented_map by exact Hm. apply keys_add_defaults_new. }
  split; [exact Hk|]. split; [| split].
  - rewrite keys_to_commented_map by exact Hm.
    unfold to_commented_map. rewrite comment_before_fold. simpl.
    unfold keys at 1. rewrite map_map. simpl.
    apply names_of_defaults; exact Hm.
  - rewrite Hk. apply NoDup_first_occurrences.
  - intros k. rewrite Hk, In_first_occurrences, in_map_iff. split.
    + intros (c & <- & Hc). apply In_spec_calls in Hc.
      destruct Hc as (ep & entry & options & spec & H1 & H2 & H3 & H4 & _).
      exists ep, entry, options, spec. auto.
    + intros (ep & entry & options & spec & H1 & H2 & H3 & H4).
      exists (mkCall k (get spec (lit "default"))
                     (Given (get spec (lit "description")))).
      split; [reflexivity|]. apply In_spec_calls.
      exists ep, entry, options, spec. simpl. auto.
Qed.

Lemma generate_document_keys_sample :
  keys (items {| items := [(lit "timeout", Plain (VInt 99))];
                 comment_before :=
                   [(lit "timeout", VStr (lit "overridden"))] |}) =
  first_occurrences (map call_name (spec_calls sample_spec)).
Proof.
  refine (proj1 (generate_document_keys sample_spec true _ _ eq_refl)).
  repeat constructor; simpl; intuition discriminate.
Defined.

(** X4. Which option wins when several entry points declare the same
    name: without overwrite the first one the loops meet, with
    overwrite the last one. The document holds its stripped value under
    the name, and its description as the comment. *)
Theorem generate_precedence (data : dict Any) (ow : bool)
    (doc : CommentedMap) (pre post : list call) (c : call) :
  wf_dict data ->
  generate_commented_defaults data ow = Ok doc ->
  spec_calls data = pre ++ c :: post ->
  (forall c', In c' (if ow then post else pre) ->
              call_name c' <> call_name c) ->
  lookup (call_name c) (items doc) =
    Some (literal_if_multiline (normalized (call_value c))) /\
  lookup (call_name c) (comment_before doc) =
    Some (arg_or (call_description c) (VStr no_description)).
Proof.
  intros Hwf E Hsplit Hwin. unfold generate_commented_defaults in E.
  rewrite (collect_cases data ow Hwf) in E.
  destruct (well_shaped data); [|discriminate].
  simpl in E. injection E as <-.
  set (m := add_defaults (new_manager ow) (spec_calls data)).
  assert (Hm : wf_manager m) by apply wf_add_defaults, wf_new_manager.
  assert (L : lookup (call_name c) (_defaults m) = Some (entry_of c)).
  { unfold m. destruct ow.
    - rewrite lookup_add_defaults_overwrite by reflexivity.
      rewrite (last_call_split _ _ _ _ Hsplit Hwin). reflexivity.
    - rewrite lookup_add_defaults_keep by reflexivity.
      rewrite (first_call_split _ _ _ _ Hsplit Hwin). reflexivity. }
  destruct (lookup_to_commented_map m (call_name c) Hm) as [Hi Hc].
  rewrite L in Hi, Hc. split; assumption.
Qed.

Lemma generate_precedence_sample :
  lookup (lit "timeout")
    (items {| items := [(lit "timeout", Plain (VInt 99))];
              comment_before :=
                [(lit "timeout", VStr (lit "overridden"))] |}) =
  Some (Plain (VInt 99)).
Proof.
  refine (proj1 (generate_precedence sample_spec true _
                   [mkCall (lit "timeout") (VInt 30)
                           (Given (VStr (lit "Timeout in seconds")))]
                   []
                   (mkCall (lit "timeout") (VInt 99)
                           (Given (VStr (lit "overridden"))))
                   _ eq_refl eq_refl _)).
  - repeat constructor; simpl; intuition discriminate.
  - intros c' [].
Defined.

(** X5. A generated document holds no [None]: an option whose default
    is [None] is never added, and stripping a string does not make it
    [None]. *)
Theorem generate_never_stores_None (data : dict Any) (ow : bool)
    (doc : CommentedMap) :
  generate_commented_defaults data ow = Ok doc ->
  holds_None doc = false /\
  (forall k x, In (k, x) (items doc) -> x <> Plain VNone).
Proof.
  intros E.
  assert (H : forall k x, In (k, x) (items doc) -> x <> Plain VNone).
  { intros k x Hin. unfold generate_commented_defaults in E.
    destruct (collect data ow) as [m|] eqn:C; [|discriminate].
    simpl in E. injection E as <-.
    destruct (collect_invariant data ow m C) as [Hwf Hnn].
    rewrite items_to_commented_map in Hin by exact Hwf.
    apply in_map_iff in Hin. destruct Hin as (rd & Heq & Hrd).
    injection Heq as _ <-.
    unfold defaults, values in Hrd. apply in_map_iff in Hrd.
    destruct Hrd as ([k' rd'] & <- & Hkv).
    pose proof (proj1 (Forall_forall _ _) Hnn _ Hkv) as Hv. simpl in *.
    destruct (value rd') as [| | |s| |]; simpl; try discriminate.
    - contradiction.
    - destruct (has_newline s); discriminate. }
  split; [|exact H].
  unfold holds_None. destruct (existsb _ (items doc)) eqn:F; [|reflexivity].
  apply existsb_exists in F. destruct F as ([k x] & Hin & Hx). simpl in Hx.
  exfalso. apply (H k x Hin).
  destruct x as [[| | | | |]|]; try discriminate. reflexivity.
Qed.

Lemma generate_never_stores_None_sample :
  holds_None {| items := [(lit "timeout", Plain (VInt 30))];
                comment_before :=
                  [(lit "timeout", VStr (lit "Timeout in seconds"))] |} =
  false.
Proof.
  exact (proj1 (generate_never_stores_None sample_spec false _ eq_refl)).
Defined.

(** ** Invariants of the collection *)

(** X6. Every string held as a value by a manager that was filled
    through [add_default] is stripped, under either policy. In its
    document a string stored as it is has no newline, and a
    [LiteralScalarString] has one; both neither start nor end with
    whitespace. *)
Theorem stored_strings_are_stripped (calls : list call) (ow : bool) :
  let m := add_defaults (new_manager ow) calls in
  strings_stripped m /\
  (forall k s, In (k, Plain (VStr s)) (items (to_commented_map m)) ->
               trimmed s /\ has_newline s = false) /\
  (forall k s, In (k, LiteralScalarString s) (items (to_commented_map m)) ->
               trimmed s /\ has_newline s = true).
Proof.
  intros m.
  assert (Hwf : wf_manager m) by apply wf_add_defaults, wf_new_manager.
  assert (Hs : strings_stripped m).
  { unfold strings_stripped, m.
    apply (add_defaults_entries
             (fun rd => forall s, value rd = VStr s -> trimmed s)).
    - intros c _ s E. unfold entry_of in E. simpl in E.
      destruct (call_value c); simpl in E; try discriminate.
      injection E as <-. apply strip_trimmed.
    - constructor. }
  assert (Hitem : forall k x, In (k, x) (items (to_commented_map m)) ->
            exists rd, x = literal_if_multiline (value rd) /\
                       forall s, value rd = VStr s -> trimmed s).
  { intros k x Hin. rewrite items_to_commented_map in Hin by exact Hwf.
    apply in_map_iff in Hin. destruct Hin as (rd & Heq & Hrd).
    injection Heq as _ <-. exists rd. split; [reflexivity|].
    unfold defaults, values in Hrd. apply in_map_iff in Hrd.
    destruct Hrd as (kv & <- & Hkv).
    exact (proj1 (Forall_forall _ _) Hs _ Hkv). }
  split; [exact Hs|]. split; intros k s Hin;
    destruct (Hitem k _ Hin) as (rd & E & Ht);
    destruct (value rd) as [| | |s0| |]; simpl in E; try discriminate;
    destruct (has_newline s0) eqn:F; try discriminate;
    injection E as ->; (split; [apply Ht; reflexivity | exact F]).
Qed.

Lemma stored_strings_are_stripped_sample :
  has_newline (lit "line1" ++ [newline] ++ lit "line2") = true.
Proof.
  refine (proj2 (proj2 (proj2
            (stored_strings_are_stripped
               [ mkCall (lit "motd")
                   (VStr (lit "line1" ++ [newline] ++ lit "line2"))
                   (Given (VStr (lit "Banner")));
                 mkCall (lit "port") (VInt 22) (Given (VStr (lit "Port"))) ]
               false))
            (lit "motd") _ _)).
  left; reflexivity.
Defined.

(** X7. A sequence of [add_default] calls never removes or moves a key
    the manager already has: the keys before are the first keys after,
    in the same order, and the new keys are names of the calls that
    were not there. The entry of a name that no call uses is left as
    it is, and so is the overwrite flag. *)
Theorem add_defaults_keeps_other_entries (m : RoleDefaultsManager)
    (calls : list call) :
  (exists added,
      keys (_defaults (add_defaults m calls)) = keys (_defaults m) ++ added /\
      forall k, In k added ->
                In k (map call_name calls) /\ ~ In k (keys (_defaults m))) /\
  (forall k, ~ In k (map call_name calls) ->
             lookup k (_defaults (add_defaults m calls)) =
             lookup k (_defaults m)) /\
  _overwrite (add_defaults m calls) = _overwrite m.
Proof.
  split; [| split].
  - eexists. split; [apply keys_add_defaults|].
    intros k Hk. apply filter_In in Hk. destruct Hk as [Hfo Hnot].
    split; [apply In_first_occurrences; exact Hfo|].
    intros Hin. apply existsb_eqb_In in Hin. rewrite Hin in Hnot.
    discriminate.
  - intros k Hk. destruct (_overwrite m) eqn:Ho.
    + rewrite lookup_add_defaults_overwrite by exact Ho.
      rewrite (last_call_absent k calls Hk). reflexivity.
    + rewrite lookup_add_defaults_keep by exact Ho.
      rewrite (first_call_absent k calls Hk).
      destruct (lookup k (_defaults m)); reflexivity.
  - apply overwrite_add_defaults.
Qed.

Lemma add_defaults_keeps_other_entries_sample :
  lookup (lit "port") (_defaults (add_defaults sample_manager sample_calls)) =
  lookup (lit "port") (_defaults sample_manager).
Proof.
  refine (proj1 (proj2 (add_defaults_keeps_other_entries
                          sample_manager sample_calls)) (lit "port") _).
  simpl. intuition discriminate.
Defined.

(** X8. Making the same calls a second time changes nothing, under
    either policy: without overwrite every name is already there, with
    overwrite every name gets the entry of its last call again, at the
    place it has. *)
Theorem add_defaults_replay (m : RoleDefaultsManager) (calls : list call) :
  wf_manager m ->
  add_defaults (add_defaults m calls) calls = add_defaults m calls.
Proof.
  intros Hwf.
  set (m1 := add_defaults m calls).
  assert (H1 : wf_manager m1) by (apply wf_add_defaults; exact Hwf).
  assert (H2 : wf_manager (add_defaults m1 calls))
    by (apply wf_add_defaults; exact H1).
  assert (Ho : _overwrite (add_defaults m1 calls) = _overwrite m1)
    by apply overwrite_add_defaults.
  assert (Hd : _defaults (add_defaults m1 calls) = _defaults m1).
  { apply dict_ext; [exact (proj1 H2) | exact (proj1 H1) | |].
    - rewrite keys_add_defaults, filter_none; [apply app_nil_r|].
      intros k Hk. apply negb_false_iff, existsb_eqb_In.
      unfold m1. rewrite keys_add_defaults. apply in_or_app.
      destruct (in_dec (list_eq_dec N.eq_dec) k (keys (_defaults m)))
        as [Hin|Hn]; [left; exact Hin | right].
      apply filter_In. split; [exact Hk|].
      apply negb_true_iff.
      destruct (existsb (Str.eqb k) (keys (_defaults m))) eqn:F;
        [apply existsb_eqb_In in F; contradiction | reflexivity].
    - intros k. destruct (_overwrite m) eqn:Hm.
      + rewrite lookup_add_defaults_overwrite
          by (unfold m1; rewrite overwrite_add_defaults; exact Hm).
        unfold m1. rewrite (lookup_add_defaults_overwrite calls m k Hm).
        destruct (last_call k calls); reflexivity.
      + rewrite lookup_add_defaults_keep
          by (unfold m1; rewrite overwrite_add_defaults; exact Hm).
        destruct (lookup k (_defaults m1)) eqn:L; [reflexivity|].
        rewrite first_call_absent; [reflexivity|].
        intros Hin. apply lookup_None in L. apply L.
        unfold m1. rewrite keys_add_defaults. apply in_or_app.
        destruct (in_dec (list_eq_dec N.eq_dec) k (keys (_defaults m)))
          as [Hk|Hn]; [left; exact Hk | right].
        apply filter_In. split; [apply In_first_occurrences; exact Hin|].
        apply negb_true_iff.
        destruct (existsb (Str.eqb k) (keys (_defaults m))) eqn:F;
          [apply existsb_eqb_In in F; contradiction | reflexivity]. }
  destruct (add_defaults m1 calls) as [d o]. destruct m1 as [d1 o1].
  simpl in *. subst. reflexivity.
Qed.

Lemma add_defaults_replay_sample :
  add_defaults (add_defaults (new_manager true) sample_calls) sample_calls =
  add_defaults (new_manager true) sample_calls.
Proof.
  apply (add_defaults_replay (new_manager true) sample_calls).
  split; constructor.
Defined.

(** ** What the driver reads *)

(** X9. The driver reads [options] of an entry point and [default] and
    [description] of an option, nothing else: setting any other key of
    an entry point descriptor, or any other key of an option
    descriptor, to any value gives the same result, document or
    error. *)
Theorem unread_fields_are_ignored (data : dict Any) (ow : bool) (ep : str)
    (entry : dict Any) :
  lookup ep data = Some (VDict entry) ->
  (forall k v,
      k <> lit "options" ->
      generate_commented_defaults
        (setitem ep (VDict (setitem k v entry)) data) ow =
      generate_commented_defaults data ow) /\
  (forall options n spec k v,
      get entry (lit "options") = VDict options ->
      lookup n options = Some (VDict spec) ->
      k <> lit "default" -> k <> lit "description" ->
      generate_commented_defaults
        (setitem ep
           (VDict (setitem (lit "options")
                     (VDict (setitem n (VDict (setitem k v spec)) options))
                     entry))
           data) ow =
      generate_commented_defaults data ow).
Proof.
  intros Hep.
  assert (Hmem : mem ep data = true) by (unfold mem; rewrite Hep; reflexivity).
  split.
  - intros k v Hk. unfold generate_commented_defaults. f_equal.
    symmetry. apply collect_replace; [exact Hmem|].
    intros m. unfold entry_point_body, get_or, get.
    rewrite Hep, lookup_setitem_eq.
    rewrite lookup_setitem_neq by congruence. reflexivity.
  - intros options n spec k v Hopts Hn Hk1 Hk2.
    unfold generate_commented_defaults. f_equal.
    symmetry. apply collect_replace; [exact Hmem|].
    intros m. rewrite (entry_point_body_options _ _ _ _ _ Hep Hopts).
    symmetry.
    erewrite entry_point_body_options;
      [| apply lookup_setitem_eq
       | unfold get; rewrite lookup_setitem_eq; reflexivity].
    apply for_each_setitem with (v := VDict spec); [exact Hn|].
    intros s. simpl. unfold get.
    rewrite !lookup_setitem_neq by congruence. reflexivity.
Qed.

Lemma unread_fields_are_ignored_sample :
  generate_commented_defaults
    (setitem (lit "main")
       (VDict (setitem (lit "short_description") (VStr (lit "Main"))
                 [ (lit "options",
                    VDict [ (lit "x", VDict [ (lit "default", VInt 1) ]) ]) ]))
       (one_default (VInt 1))) false =
  generate_commented_defaults (one_default (VInt 1)) false.
Proof.
  refine (proj1 (unread_fields_are_ignored (one_default (VInt 1)) false
                   (lit "main") _ eq_refl) _ _ _).
  vm_compute. discriminate.
Defined.

(** ** The effects of [write_defaults] *)





(** ** Blank strings *)

(** X12. [strip] returns the empty string exactly for a string made of
    whitespace only (the empty string included). Such a default is not
    [None]: the driver adds it, and the entry holds the empty
    string. *)
Theorem blank_string_is_stored_empty (s : str) :
  (strip s = [] <-> all_space s = true) /\
  (all_space s = true ->
   forall m n spec,
     get spec (lit "default") = VStr s ->
     _overwrite m = true \/ mem n (_defaults m) = false ->
     exists m',
       option_body m (n, VDict spec) = Ok m' /\
       lookup n (_defaults m') =
         Some (mkRoleDefault n (VStr []) (get spec (lit "description")))).
Proof.
  split; [apply strip_blank|].
  intros Hs m n spec Hd Hst. eexists. split.
  - apply option_body_default. rewrite Hd. discriminate.
  - rewrite lookup_add_default_stored by exact Hst.
    rewrite Hd. simpl. rewrite (proj2 (strip_blank s) Hs). reflexivity.
Qed.

Lemma blank_string_is_stored_empty_sample :
  exists m',
    option_body (new_manager false)
      (lit "x", VDict [(lit "default", VStr (lit "   "))]) = Ok m' /\
    lookup (lit "x") (_defaults m') =
      Some (mkRoleDefault (lit "x") (VStr []) VNone).
Proof.
  refine (proj2 (blank_string_is_stored_empty (lit "   ")) eq_refl
            (new_manager false) (lit "x")
            [(lit "default", VStr (lit "   "))] eq_refl _).
  right; reflexivity.
Defined.
